(** * prisma-extension-pack: transaction handle, retry adapter and query helpers

    A shallow embedding of the extension pack (the [$begin] client method,
    [RetryTransactions], and the model methods [findRandom],
    [findManyRandom], [paginate], [updateIgnoreOnNotFound] and
    [deleteIgnoreOnNotFound]) together with the properties of its
    specification.

    JavaScript numbers are integers ([Z]) here, except the result of
    [Math.random()], which is a rational of the unit interval.  Objects are
    locations of a heap, so that [===] on objects is identity. *)

From Stdlib Require Import ZArith QArith Qround Lia.
From stdpp Require Import gmap strings list.

Local Open Scope Z_scope.

(** ** The fragment of JavaScript the pack relies on *)

Module JS.

Definition loc := nat.

Inductive value :=
| VUndefined
| VNull
| VBool (b : bool)
| VNum (n : Z)
| VStr (s : string)
| VObj (l : loc).

#[global] Instance value_eq_dec : EqDecision value.
Proof. solve_decision. Defined.

(** Property keys: plain names, and symbols of the global registry
    ([Symbol.for(name)]). *)
Inductive propkey :=
| KStr (s : string)
| KSym (s : string).

#[global] Instance propkey_eq_dec : EqDecision propkey.
Proof. solve_decision. Defined.

#[global] Instance propkey_countable : Countable propkey.
Proof.
  refine (inj_countable'
            (fun k => match k with KStr s => inl s | KSym s => inr s end)
            (fun x => match x with inl s => KStr s | inr s => KSym s end) _).
  by intros [].
Defined.

(** An object is the map of the properties a lookup on it finds; the
    heap maps the location of each live object to it. *)
Abbreviation object := (gmap propkey value).
Abbreviation heap := (gmap loc object).

(** [a === b]: primitives by value, objects by identity. *)
Definition strict_eq (a b : value) : bool :=
  match a, b with
  | VUndefined, VUndefined => true
  | VNull, VNull => true
  | VBool x, VBool y => Bool.eqb x y
  | VNum x, VNum y => Z.eqb x y
  | VStr x, VStr y => String.eqb x y
  | VObj x, VObj y => Nat.eqb x y
  | _, _ => false
  end.

(** [v?.name]: [undefined] on a nullish [v]; a primitive has none of the
    properties read here; an object answers from its property map. *)
Definition opt_get (h : heap) (v : value) (name : string) : value :=
  match v with
  | VObj l =>
      match h !! l with
      | Some o => default VUndefined (o !! KStr name)
      | None => VUndefined
      end
  | _ => VUndefined
  end.

(** [a ?? b] on an optional field: only an absent ([undefined]) left
    operand falls through. *)
Definition nullish {A} (a : option A) (b : A) : A :=
  match a with
  | Some x => x
  | None => b
  end.

(** How a function body ends. *)
Inductive completion (A : Type) :=
| Return (a : A)
| Throw (e : value).
Arguments Return {A} a.
Arguments Throw {A} e.

(** *** Promises *)

Inductive pstate :=
| Pending
| Fulfilled (v : value)
| Rejected (e : value).

#[global] Instance pstate_eq_dec : EqDecision pstate.
Proof. solve_decision. Defined.

(** The two resolving functions an executor receives: they act on a
    pending promise only. *)
Definition resolve (v : value) (p : pstate) : pstate :=
  match p with
  | Pending => Fulfilled v
  | _ => p
  end.

Definition reject (e : value) (p : pstate) : pstate :=
  match p with
  | Pending => Rejected e
  | _ => p
  end.

(** [p.catch(handler)]: the state of the derived promise. *)
Definition catch (handler : value -> completion value) (p : pstate) : pstate :=
  match p with
  | Pending => Pending
  | Fulfilled v => Fulfilled v
  | Rejected e =>
      match handler e with
      | Return v => Fulfilled v
      | Throw e' => Rejected e'
      end
  end.

Definition settled (p : pstate) : bool :=
  match p with
  | Pending => false
  | _ => true
  end.

End JS.


(** ** The retry adapter: [RetryTransactions] *)

Module Retry.
Import JS.

(** [retry: (e) => e?.code === "P2034"] *)
Definition default_retry (h : heap) (e : value) : bool :=
  strict_eq (opt_get h e "code") (VStr "P2034").

(** The fields of [Partial<IBackOffOptions>] that decide whether another
    attempt is made.  An options object may have no entry [retry]
    ([None]), or an entry whose value is [undefined] ([Some None]) or a
    function ([Some (Some c)]). *)
Record BackOffOptions := {
  retry : option (option (value -> bool));
  numOfAttempts : option nat
}.

(** [{ retry: (e) => ..., ...options }]: an entry [retry] of the caller's
    options replaces the default classifier, also when its value is
    [undefined]; the result is then no function ([None]). *)
Definition merged_retry (h : heap) (options : option BackOffOptions)
    : option (value -> bool) :=
  match options ≫= retry with
  | None => Some (default_retry h)
  | Some r => r
  end.

(** Modelled from the spec: the retry loop of the [backOff] function of the
    exponential-backoff package, which is not part of the sources.  It
    executes the operation; on failure it consults the classifier and, when
    the classifier accepts and attempts are left, executes it again; when
    the classifier refuses or the attempts are exhausted it propagates the
    last error unchanged.  [request k] is how the [k]-th execution of the
    operation ends, [left] the number of attempts still allowed after the
    current one.  The result comes with the number of executions made. *)
Fixpoint backOff_from (request : nat -> completion value) (classifier : value -> bool)
    (left k : nat) : completion value * nat :=
  match request k with
  | Return v => (Return v, S k)
  | Throw e =>
      match left with
      | O => (Throw e, S k)
      | S left' =>
          if classifier e then backOff_from request classifier left' (S k)
          else (Throw e, S k)
      end
  end.

(** Modelled from the spec: [backOff(request, options)] with its attempt
    limit (at least one attempt is made). *)
Definition backOff (request : nat -> completion value) (classifier : value -> bool)
    (attempts : nat) : completion value * nat :=
  backOff_from request classifier (Nat.pred attempts) 0%nat.

(** The [TypeError] the runtime throws when what is called is not a
    function: a new object. *)
Definition type_error (h : heap) : value := VObj (fresh (dom h)).

(** Modelled from the spec: [backOff] with the classifier the merged
    options hold.  When that is no function, consulting it on the first
    failure throws, and the run ends there with the [TypeError]. *)
Definition backOff_with (h : heap) (request : nat -> completion value)
    (classifier : option (value -> bool)) (attempts : nat) : completion value * nat :=
  match classifier with
  | Some c => backOff request c attempts
  | None =>
      match request 0%nat with
      | Return v => (Return v, 1%nat)
      | Throw _ => (Throw (type_error h), 1%nat)
      end
  end.

(** The [$transaction] of the extended client:
    [backOff(() => prisma.$transaction.apply(prisma, args), { retry, ...options })].
    [request k] is the outcome of the [k]-th call of the underlying
    [$transaction]; [default_attempts] is the attempt limit the package
    uses when the options give none. *)
Definition transaction (default_attempts : nat) (h : heap)
    (options : option BackOffOptions) (request : nat -> completion value)
    : completion value * nat :=
  backOff_with h request (merged_retry h options)
    (nullish (options ≫= numOfAttempts) default_attempts).


End Retry.

(** ** The transaction controller: [$begin] *)

Module Txn.
Import JS.

(** [const ROLLBACK = { [Symbol.for("prisma.client.extension.rollback")]: true }],
    allocated once when the module is loaded. *)
Definition ROLLBACK_loc : loc := 0%nat.
Definition ROLLBACK : value := VObj ROLLBACK_loc.
Definition ROLLBACK_object : object :=
  {[ KSym "prisma.client.extension.rollback" := VBool true ]}.

(** The promises of a run.  A promise is either made by [new Promise] and
    settled through its resolving functions, or it follows a promise that
    stands before it in the store. *)
Inductive cell :=
| Plain (s : pstate)
    (* [new Promise(executor)]: settled through its resolving functions *)
| Caught (src : loc)
    (* [src.catch((e) => { if (e === ROLLBACK) return; throw e; })] *)
| Scope (cb : loc) (own_failure : option value).
    (* the promise [prisma.$transaction(callback)] returns, where the
       callback returned the promise [cb] *)

Record world := {
  objects : heap;
  promises : list cell
}.

Definition initial_world : world :=
  {| objects := {[ ROLLBACK_loc := ROLLBACK_object ]}; promises := [] |}.

(** The handler given to [catch] inside the transaction callback. *)
Definition on_rejected (e : value) : completion value :=
  if strict_eq e ROLLBACK then Return VUndefined else Throw e.

(** The scoped-transaction primitive of the client: it settles as the
    promise of its callback does, unless the scope fails by itself when it
    completes (a write conflict, say). *)
Definition scope_state (own_failure : option value) (cb : pstate) : pstate :=
  match cb with
  | Pending => Pending
  | Fulfilled v =>
      match own_failure with
      | None => Fulfilled v
      | Some e => Rejected e
      end
  | Rejected e => Rejected e
  end.

(** The state of each promise, from those of the promises before it. *)
Definition cell_state (earlier : list pstate) (c : cell) : pstate :=
  match c with
  | Plain s => s
  | Caught src => catch on_rejected (default Pending (earlier !! src))
  | Scope cb f => scope_state f (default Pending (earlier !! cb))
  end.

Fixpoint states_from (acc : list pstate) (cs : list cell) : list pstate :=
  match cs with
  | [] => acc
  | c :: cs' => states_from (acc ++ [cell_state acc c]) cs'
  end.

Definition state_of (w : world) (p : loc) : pstate :=
  default Pending (states_from [] (promises w) !! p).

(** Computations that change the world and may throw. *)
Definition M (A : Type) : Type := world -> completion A * world.

Definition ret {A} (a : A) : M A := fun w => (Return a, w).

Definition throw {A} (e : value) : M A := fun w => (Throw e, w).

Definition bind {A B} (m : M A) (k : A -> M B) : M B :=
  fun w =>
    match m w with
    | (Return a, w') => k a w'
    | (Throw e, w') => (Throw e, w')
    end.

Notation "x <- m ;; k" := (bind m (fun x => k))
  (at level 100, m at next level, right associativity).

Definition new_promise (c : cell) : M loc :=
  fun w => (Return (length (promises w)),
            {| objects := objects w; promises := promises w ++ [c] |}).

Definition on_plain (f : pstate -> pstate) (c : cell) : cell :=
  match c with
  | Plain s => Plain (f s)
  | _ => c
  end.

Definition settle (p : loc) (f : pstate -> pstate) : M unit :=
  fun w => (Return tt,
            {| objects := objects w; promises := alter (on_plain f) p (promises w) |}).

(** [new Error(message)] *)
Definition new_error (message : string) : M value :=
  fun w =>
    let l := fresh (dom (objects w)) in
    (Return (VObj l),
     {| objects := <[ l := {[ KStr "message" := VStr message ]} ]> (objects w);
        promises := promises w |}).

(** What [$begin] needs of the client it extends: its [$transaction]
    function, if it has one, with the transactional client this function
    hands to its callback and the failure of the scope itself, if any.
    The clients described are those whose [$transaction] calls its
    callback, with an object: with another one [$begin] does not return a
    handle. *)
Record scoped_transaction := {
  tx_client : value;
  own_failure : option value
}.

Record client := {
  transaction : option scoped_transaction
}.

(** The proxy [$begin] returns: the transactional client it forwards to,
    and what its [$commit] and [$rollback] close over. *)
Record handle := {
  target : value;
  txPromise : loc;
  tx : loc
}.

(** [$begin].  The callback given to [prisma.$transaction] runs once the
    client has opened the scope; what it does is placed here at the call. *)
Definition begin (prisma : client) : M handle :=
  txClient <- new_promise (Plain Pending) ;;
  txPromise <- new_promise (Plain Pending) ;;
  match transaction prisma with
  | Some t =>
      (* the callback, run by [prisma.$transaction] *)
      _ <- settle txClient (resolve (tx_client t)) ;;
      cb <- new_promise (Caught txPromise) ;;
      tx <- new_promise (Scope cb (own_failure t)) ;;
      (* [await txClient], which the callback has fulfilled *)
      ret {| target := tx_client t; txPromise := txPromise; tx := tx |}
  | None =>
      e <- new_error "Transactions are not supported by this client" ;;
      throw e
  end.

(** [commit = () => _res(undefined)], [rollback = () => _rej(ROLLBACK)],
    and the two methods of the proxy. *)
Definition commit (h : handle) : M loc :=
  _ <- settle (txPromise h) (resolve VUndefined) ;;
  ret (tx h).

Definition rollback (h : handle) : M loc :=
  _ <- settle (txPromise h) (reject ROLLBACK) ;;
  ret (tx h).

Inductive decision :=
| Commit
| Rollback.

Definition decide_with (h : handle) (d : decision) : M loc :=
  match d with
  | Commit => commit h
  | Rollback => rollback h
  end.

(** A sequence of calls on one handle: the objects the calls return, and
    the world they leave. *)
Fixpoint decide_all (h : handle) (ds : list decision) (w : world) : list loc * world :=
  match ds with
  | [] => ([], w)
  | d :: ds' =>
      match decide_with h d w with
      | (Return p, w') => let r := decide_all h ds' w' in (p :: r.1, r.2)
      | (Throw _, w') => ([], w')
      end
  end.

End Txn.

(** ** The sampling engine: [findRandom] and [findManyRandom] *)

Module Sampling.
Import JS.

(** A record of the model: its identifier and its other fields. *)
Record row := {
  id : string;
  fields : list (string * value)
}.

(** The heap of the string arrays of a call: [rowIds] lives there, and the
    filter refers to it by its location. *)
Abbreviation arrays := (gmap loc (list string)).

(** A [where] object: its entry [id], if it has one, and its other
    entries.  The client takes the conjunction of the entries.  The entry
    [id] is either a condition the caller wrote or [{ notIn: a }] for an
    array [a] held by reference. *)
Inductive id_filter :=
| IdWhere (p : string -> bool)
| IdNotIn (a : loc).

Record where_t := {
  where_id : option id_filter;
  where_rest : row -> bool
}.

(** [{}] *)
Definition empty_where : where_t :=
  {| where_id := None; where_rest := fun _ => true |}.

(** [{ ...where, id: { notIn: rowIds } }] *)
Definition spread_notIn (w : where_t) (rowIds : loc) : where_t :=
  {| where_id := Some (IdNotIn rowIds); where_rest := where_rest w |}.

Definition id_filter_holds (σ : arrays) (f : id_filter) (x : string) : bool :=
  match f with
  | IdWhere p => p x
  | IdNotIn a => negb (bool_decide (x ∈ default [] (σ !! a)))
  end.

Definition matches (σ : arrays) (w : where_t) (r : row) : bool :=
  where_rest w r &&
  match where_id w with
  | None => true
  | Some f => id_filter_holds σ f (id r)
  end.

(** [select]: the names of the selected fields other than [id], which
    the type of [select] requires to be selected. *)
Definition project (select : option (list string)) (r : row) : row :=
  match select with
  | None => r
  | Some names =>
      {| id := id r;
         fields := filter (fun kv => kv.1 ∈ names) (fields r) |}
  end.

(** The two requests made to the client, on the records [db] the model
    holds when the request is served, in the order the store keeps them. *)
Definition population (σ : arrays) (db : list row) (w : where_t) : list row :=
  filter (fun r => matches σ w r) db.

Definition count (σ : arrays) (db : list row) (w : where_t) : Z :=
  Z.of_nat (length (population σ db w)).

Definition findFirst (σ : arrays) (db : list row) (w : where_t)
    (select : option (list string)) (skip : Z) : option row :=
  project select <$> population σ db w !! Z.to_nat skip.

(** What a call depends on besides its arguments: the records of the
    model at each successive request of the call, and the successive
    results of [Math.random()]. *)
Record env := {
  db_at : nat -> list row;
  random : nat -> Q
}.

(** [Math.max(0, Math.floor(Math.random() * numRows))].  The product is
    taken exactly here, where the code rounds it to a double; what is
    proved of the sampling functions uses of the offset only that it is
    not negative and below a positive count. *)
Definition random_skip (r : Q) (numRows : Z) : Z :=
  Z.max 0 (Qfloor (r * inject_Z numRows)).

(** The calls of [findRandom] described here are those with no argument
    besides [where] and [select], and with a [select] that selects [id]
    when there is one.  The other arguments of [findFirst] ([cursor],
    [distinct], [orderBy], [take]), which the code passes on to the
    fetch, are not described. *)
Record findFirstArgs := {
  first_where : option where_t;
  first_select : option (list string)
}.

Definition findRandom (e : env) (args : option findFirstArgs) : option row :=
  let w := nullish (args ≫= first_where) empty_where in
  let numRows := count ∅ (db_at e 0%nat) w in
  findFirst ∅ (db_at e 1%nat) w (args ≫= first_select) (random_skip (random e 0%nat) numRows).

(** The diagnostic of a failed draw, with the filter and the identifiers
    excluded at that moment. *)
Inductive diagnostic :=
| GetRandomRowFailed (w : where_t) (excluded : list string).

(** The variables of [findManyRandom] while it runs. *)
Record state := {
  i : Z;
  numRows : Z;
  rows : list row;
  heap : arrays;
  requests : nat;
  draws : nat;
  console : list diagnostic
}.

(** [const rowIds: string[] = []] *)
Definition rowIds : loc := 0%nat.

Definition rowIds_of (s : state) : list string :=
  default [] (heap s !! rowIds).

Definition push (a : loc) (x : string) (σ : arrays) : arrays :=
  <[ a := default [] (σ !! a) ++ [x] ]> σ.

Inductive flow :=
| Next (s : state)
| Break (s : state).

(** The loop condition [i < num && numRows > 0]. *)
Definition guard (num : Z) (s : state) : bool :=
  (i s <? num) && (0 <? numRows s).

(** One run of the loop body. *)
Definition body (e : env) (select : option (list string)) (w : where_t) (s : state) : flow :=
  let skip := random_skip (random e (draws s)) (numRows s) in
  match findFirst (heap s) (db_at e (requests s)) w select skip with
  | None =>
      Break {| i := i s; numRows := numRows s; rows := rows s; heap := heap s;
               requests := S (requests s); draws := S (draws s);
               console := console s ++ [GetRandomRowFailed w (rowIds_of s)] |}
  | Some row =>
      Next {| i := i s; numRows := numRows s - 1; rows := rows s ++ [row];
              heap := push rowIds (id row) (heap s);
              requests := S (requests s); draws := S (draws s);
              console := console s |}
  end.

(** [++i] *)
Definition increment (s : state) : state :=
  {| i := i s + 1; numRows := numRows s; rows := rows s; heap := heap s;
     requests := requests s; draws := draws s; console := console s |}.

(** The [for] loop; [None] when the fuel does not suffice. *)
Fixpoint for_loop (fuel : nat) (e : env) (select : option (list string)) (w : where_t)
    (num : Z) (s : state) : option state :=
  if guard num s then
    match fuel with
    | O => None
    | S fuel' =>
        match body e select w s with
        | Break s' => Some s'
        | Next s' => for_loop fuel' e select w num (increment s')
        end
    end
  else Some s.

Record findManyRandomArgs := {
  many_where : option where_t;
  many_select : option (list string)
}.

(** The state on entry of the loop: the count has been awaited, the two
    arrays are empty. *)
Definition entry (e : env) (w : where_t) : state :=
  {| i := 0; numRows := count ∅ (db_at e 0%nat) w; rows := [];
     heap := {[ rowIds := [] ]}; requests := 1; draws := 0; console := [] |}.

Definition select_of (args : option findManyRandomArgs) : option (list string) :=
  Some (nullish (args ≫= many_select) []).

Definition where_of (args : option findManyRandomArgs) : where_t :=
  nullish (args ≫= many_where) empty_where.

Definition run (e : env) (num : Z) (args : option findManyRandomArgs) : option state :=
  let w := where_of args in
  for_loop (Z.to_nat num) e (select_of args) (spread_notIn w rowIds) num (entry e w).

(** The call returns [rows]. *)
Definition findManyRandom (e : env) (num : Z) (args : option findManyRandomArgs)
    : option (list row) :=
  rows <$> run e num args.

(** The states a call goes through, at the test of the loop condition. *)
Inductive reachable (e : env) (num : Z) (args : option findManyRandomArgs) : state -> Prop :=
| reach_entry : reachable e num args (entry e (where_of args))
| reach_next s s' :
    reachable e num args s ->
    guard num s = true ->
    body e (select_of args) (spread_notIn (where_of args) rowIds) s = Next s' ->
    reachable e num args (increment s').

End Sampling.

(** ** Pagination: [paginate] *)

Module Pagination.
Import JS.

Section Paginate.

(** The filter language, the other arguments of [findMany] (ordering,
    selection, cursor) and the records are those of the client. *)
Context {Where Other Row : Type}.

Record Pagination := {
  take : option Z;
  skip : option Z
}.

(** The arguments of [findMany]. *)
Record FindManyArgs := {
  fm_where : option Where;
  fm_take : option Z;
  fm_skip : option Z;
  fm_other : option Other
}.

(** The argument of [paginate]: [pagination] and, beside it, the fields of
    a [findMany] query. *)
Record PaginateArgs := {
  pagination : option Pagination;
  operationArgs : FindManyArgs
}.

(** [{}] *)
Definition no_args : FindManyArgs :=
  {| fm_where := None; fm_take := None; fm_skip := None; fm_other := None |}.

(** [const { pagination, ...operationArgs } = (args ?? {})] *)
Definition rest_of (args : option PaginateArgs) : FindManyArgs :=
  match args with
  | Some a => operationArgs a
  | None => no_args
  end.

(** The version with the not-found-tolerant mutations:
    [args?.pagination?.take ?? operationArgs?.take ?? 10] and
    [args?.pagination?.skip ?? operationArgs?.skip ?? 0]. *)
Definition take_of (args : option PaginateArgs) : Z :=
  nullish ((args ≫= pagination) ≫= take) (nullish (fm_take (rest_of args)) 10).

Definition skip_of (args : option PaginateArgs) : Z :=
  nullish ((args ≫= pagination) ≫= skip) (nullish (fm_skip (rest_of args)) 0).

(** The version of [src/index.ts]: [args?.pagination?.take ?? 10] and
    [args?.pagination?.skip ?? 0]. *)
Definition index_take_of (args : option PaginateArgs) : Z :=
  nullish ((args ≫= pagination) ≫= take) 10.

Definition index_skip_of (args : option PaginateArgs) : Z :=
  nullish ((args ≫= pagination) ≫= skip) 0.

(** [{ ...operationArgs, skip, take }] *)
Definition window (rest : FindManyArgs) (skip take : Z) : FindManyArgs :=
  {| fm_where := fm_where rest; fm_take := Some take; fm_skip := Some skip;
     fm_other := fm_other rest |}.

(** The query given to [findMany]. *)
Definition fetch_query (args : option PaginateArgs) : FindManyArgs :=
  window (rest_of args) (skip_of args) (take_of args).

Definition index_fetch_query (args : option PaginateArgs) : FindManyArgs :=
  window (rest_of args) (index_skip_of args) (index_take_of args).

Record Page := {
  data : list Row;
  total : Z
}.

(** The client: [findMany] and [count], on the records the model holds. *)
Context (findMany : FindManyArgs -> list Row) (count : option Where -> Z).

Definition paginate (args : option PaginateArgs) : Page :=
  {| data := findMany (fetch_query args);
     total := count (fm_where (rest_of args)) |}.

Definition index_paginate (args : option PaginateArgs) : Page :=
  {| data := findMany (index_fetch_query args);
     total := count (fm_where (rest_of args)) |}.

End Paginate.

Arguments Pagination : clear implicits.
Arguments FindManyArgs : clear implicits.
Arguments PaginateArgs : clear implicits.
Arguments Page : clear implicits.

End Pagination.

(** ** The not-found-tolerant mutations *)

Module Mutation.
Import JS.

Section Wrappers.

Context {Args Record : Type}.

(** The heap in which the thrown values live. *)
Context (h : heap).

(** [catch (err) { if (err?.code === "P2025") return null; throw err; }] *)
Definition ignore_not_found (attempt : completion Record) : completion (option Record) :=
  match attempt with
  | Return r => Return (Some r)
  | Throw err =>
      if strict_eq (opt_get h err "code") (VStr "P2025") then Return None
      else Throw err
  end.

(** [context.update] and [context.delete] are the client's. *)
Definition updateIgnoreOnNotFound (update : Args -> completion Record) (args : Args)
    : completion (option Record) :=
  ignore_not_found (update args).

Definition deleteIgnoreOnNotFound (delete : Args -> completion Record) (args : Args)
    : completion (option Record) :=
  ignore_not_found (delete args).

End Wrappers.

End Mutation.

(** ** The existence test: [exists] *)

Module Existence.
Import JS Sampling.

(** [const result = await context.findFirst({ where }); return result !== null;]
    The request has neither [skip] nor [select]: the client answers with
    the first record that matches, whole. *)
Definition exists_ (e : env) (w : option where_t) : bool :=
  match findFirst ∅ (db_at e 0%nat) (nullish w empty_where) None 0 with
  | Some _ => true
  | None => false
  end.

End Existence.

(** * Properties *)

(** ** Strict equality and promises *)

Section JSFacts.
Import JS.

Lemma strict_eq_refl v : strict_eq v v = true.
Proof.
  destruct v; simpl; auto.
  - by destruct b.
  - apply Z.eqb_refl.
  - apply String.eqb_refl.
  - apply Nat.eqb_refl.
Qed.

Lemma strict_eq_true a b : strict_eq a b = true <-> a = b.
Proof.
  split; [|intros ->; apply strict_eq_refl].
  destruct a, b; simpl; try discriminate; auto.
  - intros H. apply Bool.eqb_prop in H. by subst.
  - intros H. apply Z.eqb_eq in H. by subst.
  - intros H. apply String.eqb_eq in H. by subst.
  - intros H. apply Nat.eqb_eq in H. by subst.
Qed.

Lemma strict_eq_false a b : strict_eq a b = false <-> a <> b.
Proof.
  rewrite <- strict_eq_true. destruct (strict_eq a b); split; congruence.
Qed.

Lemma resolve_settled v p : settled p = true -> resolve v p = p.
Proof. by destruct p. Qed.

Lemma reject_settled e p : settled p = true -> reject e p = p.
Proof. by destruct p. Qed.

Lemma resolve_is_settled v p : settled (resolve v p) = true.
Proof. by destruct p. Qed.

Lemma reject_is_settled e p : settled (reject e p) = true.
Proof. by destruct p. Qed.

End JSFacts.

(** ** The not-found-tolerant mutations *)

Section MutationFacts.
Import JS Mutation.

Context {Args Record : Type} (h : heap).

Lemma ignore_not_found_null (attempt : completion Record) :
  ignore_not_found h attempt = Return None <->
  exists err, attempt = Throw err /\ opt_get h err "code" = VStr "P2025".
Proof.
  unfold ignore_not_found. destruct attempt as [r|err].
  - split; [discriminate | intros (e & He & _); discriminate].
  - destruct (strict_eq (opt_get h err "code") (VStr "P2025")) eqn:E.
    + apply strict_eq_true in E. split; eauto.
    + apply strict_eq_false in E. split; [discriminate|].
      intros (e & He & Hc). congruence.
Qed.

Lemma ignore_not_found_other (attempt : completion Record) err :
  attempt = Throw err -> opt_get h err "code" <> VStr "P2025" ->
  ignore_not_found h attempt = Throw err.
Proof.
  intros -> Hc. unfold ignore_not_found.
  apply strict_eq_false in Hc. by rewrite Hc.
Qed.

(** C8: [updateIgnoreOnNotFound] and [deleteIgnoreOnNotFound] return [null]
    exactly when the underlying mutation failed with a value whose [code]
    is ["P2025"]; a failure with any other code is thrown again unchanged;
    a successful mutation returns the record it produced. *)
Theorem ignoreOnNotFound_null_iff_P2025
    (update delete : Args -> completion Record) (args : Args) :
  ((updateIgnoreOnNotFound h update args = Return None <->
      exists err, update args = Throw err /\ opt_get h err "code" = VStr "P2025") /\
   (forall err, update args = Throw err -> opt_get h err "code" <> VStr "P2025" ->
      updateIgnoreOnNotFound h update args = Throw err) /\
   (forall r, update args = Return r ->
      updateIgnoreOnNotFound h update args = Return (Some r))) /\
  ((deleteIgnoreOnNotFound h delete args = Return None <->
      exists err, delete args = Throw err /\ opt_get h err "code" = VStr "P2025") /\
   (forall err, delete args = Throw err -> opt_get h err "code" <> VStr "P2025" ->
      deleteIgnoreOnNotFound h delete args = Throw err) /\
   (forall r, delete args = Return r ->
      deleteIgnoreOnNotFound h delete args = Return (Some r))).
Proof.
  unfold updateIgnoreOnNotFound, deleteIgnoreOnNotFound.
  repeat split; try apply ignore_not_found_null;
    try (intros; by apply ignore_not_found_other);
    intros r ->; reflexivity.
Qed.

End MutationFacts.

(** A not-found failure, another failure and a success, on a concrete heap. *)
Example updateIgnoreOnNotFound_runs :
  let h : JS.heap :=
    {[ 1%nat := {[ JS.KStr "code" := JS.VStr "P2025" ]};
       2%nat := {[ JS.KStr "code" := JS.VStr "P2002" ]} ]} in
  let update (n : nat) : JS.completion string :=
    match n with
    | O => JS.Return "updated"%string
    | S O => JS.Throw (JS.VObj 1%nat)
    | _ => JS.Throw (JS.VObj 2%nat)
    end in
  Mutation.updateIgnoreOnNotFound h update 0%nat = JS.Return (Some "updated"%string) /\
  Mutation.updateIgnoreOnNotFound h update 1%nat = JS.Return None /\
  Mutation.updateIgnoreOnNotFound h update 2%nat = JS.Throw (JS.VObj 2%nat).
Proof. vm_compute. auto. Qed.

(** ** Pagination *)

Section PaginationFacts.
Import JS Pagination.

Context {Where Other Row : Type}.

Abbreviation Args := (PaginateArgs Where Other).
Abbreviation Query := (FindManyArgs Where Other).

(** The precedence of the version with the fall-back on the base query:
    the pagination argument, then the field of the base query, then the
    defaults 10 and 0; and the fetch is made with the values so resolved. *)
Lemma paginate_precedence (args : option Args) :
  let explicit := args ≫= pagination in
  let base := rest_of args in
  take_of args =
    match explicit ≫= take, fm_take base with
    | Some t, _ => t
    | None, Some t => t
    | None, None => 10
    end /\
  skip_of args =
    match explicit ≫= skip, fm_skip base with
    | Some s, _ => s
    | None, Some s => s
    | None, None => 0
    end /\
  fm_take (fetch_query args) = Some (take_of args) /\
  fm_skip (fetch_query args) = Some (skip_of args).
Proof.
  cbv zeta. unfold fetch_query, window. simpl.
  unfold take_of, skip_of, nullish.
  destruct ((args ≫= pagination) ≫= take), ((args ≫= pagination) ≫= skip),
    (fm_take (rest_of args)), (fm_skip (rest_of args)); repeat split.
Qed.

(** The version of [src/index.ts] resolves against the defaults only. *)
Lemma index_paginate_precedence (args : option Args) :
  index_take_of args = nullish ((args ≫= pagination) ≫= take) 10 /\
  index_skip_of args = nullish ((args ≫= pagination) ≫= skip) 0 /\
  fm_take (index_fetch_query args) = Some (index_take_of args) /\
  fm_skip (index_fetch_query args) = Some (index_skip_of args).
Proof. repeat split. Qed.

(** C6, as the code has it: [paginate] applies no clamp.  For every call,
    in both versions, the [take] and the [skip] of the query given to
    [findMany] are the values resolved from the arguments: the one given
    in the pagination argument, else (in the version with the fall-back)
    the one of the base query, else the default 10 or 0.  A value the
    caller gives reaches [findMany] as it was given, whatever its sign;
    the other fields of the base query are passed on unchanged. *)
Theorem paginate_window_not_clamped
    (findMany : Query -> list Row) (count : option Where -> Z) (args : option Args) :
  let explicit := args ≫= pagination in
  let base := rest_of args in
  let t :=
    match explicit ≫= take, fm_take base with
    | Some t, _ => t
    | None, Some t => t
    | None, None => 10
    end in
  let s :=
    match explicit ≫= skip, fm_skip base with
    | Some s, _ => s
    | None, Some s => s
    | None, None => 0
    end in
  let index_t := match explicit ≫= take with Some t => t | None => 10 end in
  let index_s := match explicit ≫= skip with Some s => s | None => 0 end in
  fetch_query args = window base s t /\
  index_fetch_query args = window base index_s index_t /\
  data (paginate findMany count args) = findMany (window base s t) /\
  data (index_paginate findMany count args)
    = findMany (window base index_s index_t) /\
  (forall s' t' : Z,
     fm_take (window base s' t') = Some t' /\
     fm_skip (window base s' t') = Some s' /\
     fm_where (window base s' t') = fm_where base /\
     fm_other (window base s' t') = fm_other base).
Proof.
  cbv zeta. unfold paginate, index_paginate. cbn [data].
  unfold fetch_query, index_fetch_query.
  unfold take_of, skip_of, index_take_of, index_skip_of, nullish.
  destruct ((args ≫= pagination) ≫= take), ((args ≫= pagination) ≫= skip),
    (fm_take (rest_of args)), (fm_skip (rest_of args)); repeat split.
Qed.

(** The page is what the client answers to that query, and the total is
    the count under the filter of the base query alone. *)
Lemma paginate_page (findMany : Query -> list Row) (count : option Where -> Z)
    (args : option Args) :
  data (paginate findMany count args) = findMany (fetch_query args) /\
  total (paginate findMany count args) = count (fm_where (rest_of args)) /\
  data (index_paginate findMany count args) = findMany (index_fetch_query args) /\
  total (index_paginate findMany count args) = count (fm_where (rest_of args)).
Proof. repeat split. Qed.

End PaginationFacts.

(** C5: [paginate({ take: 5, skip: 20 })], with no pagination argument.
    The [paginate] of [src/index.ts] fetches with the defaults, take 10
    and skip 0, and not with the values of the base query; the version
    with the fall-back fetches with take 5 and skip 20. *)
Lemma index_paginate_ignores_base_query :
  let args : option (Pagination.PaginateArgs unit unit) :=
    Some {| Pagination.pagination := None;
            Pagination.operationArgs :=
              {| Pagination.fm_where := None; Pagination.fm_take := Some 5;
                 Pagination.fm_skip := Some 20; Pagination.fm_other := None |} |} in
  Pagination.fm_take (Pagination.index_fetch_query args) = Some 10 /\
  Pagination.fm_skip (Pagination.index_fetch_query args) = Some 0 /\
  Pagination.fm_take (Pagination.fetch_query args) = Some 5 /\
  Pagination.fm_skip (Pagination.fetch_query args) = Some 20.
Proof. repeat split. Qed.

(** C6 fails as stated: [paginate({ pagination: { take: -5, skip: -3 } })]
    fetches with take -5 and skip -3. *)
Lemma paginate_negative_window_reaches_fetch :
  let args : option (Pagination.PaginateArgs unit unit) :=
    Some {| Pagination.pagination :=
              Some {| Pagination.take := Some (-5); Pagination.skip := Some (-3) |};
            Pagination.operationArgs := Pagination.no_args |} in
  Pagination.fm_take (Pagination.fetch_query args) = Some (-5) /\
  Pagination.fm_skip (Pagination.fetch_query args) = Some (-3) /\
  ~ (0 <= -5) /\ ~ (0 <= -3).
Proof. repeat split; lia. Qed.

(** ** The retry adapter *)

Section RetryFacts.
Import JS Retry.

Context (request : nat -> completion value) (classifier : value -> bool).



End RetryFacts.

Section RetryTransactionsFacts.
Import JS Retry.

Context (default_attempts : nat) (h : heap).

Lemma default_retry_P2034 (e : value) :
  default_retry h e = true <-> opt_get h e "code" = VStr "P2034".
Proof. apply strict_eq_true. Qed.

Lemma merged_retry_default (options : option BackOffOptions) :
  options ≫= retry = None -> merged_retry h options = Some (default_retry h).
Proof. unfold merged_retry. by intros ->. Qed.

Lemma transaction_with (options : option BackOffOptions)
    (request : nat -> completion value) (classifier : value -> bool) :
  merged_retry h options = Some classifier ->
  transaction default_attempts h options request
  = backOff_from request classifier
      (Nat.pred (nullish (options ≫= numOfAttempts) default_attempts)) 0.
Proof. unfold transaction, backOff_with, backOff. by intros ->. Qed.


End RetryTransactionsFacts.


(** Two write conflicts and then a success: three attempts; a constraint
    violation: one attempt. *)
Example transaction_runs :
  let h : JS.heap :=
    {[ 1%nat := {[ JS.KStr "code" := JS.VStr "P2034" ]};
       2%nat := {[ JS.KStr "code" := JS.VStr "P2002" ]} ]} in
  Retry.transaction 10 h None
    (fun k => if (k <? 2)%nat then JS.Throw (JS.VObj 1%nat) else JS.Return (JS.VNum 7))
  = (JS.Return (JS.VNum 7), 3%nat) /\
  Retry.transaction 10 h None (fun _ => JS.Throw (JS.VObj 2%nat))
  = (JS.Throw (JS.VObj 2%nat), 1%nat).
Proof. split; reflexivity. Qed.

(** ** The transaction controller *)

Section TxnFacts.
Import JS Txn.

Lemma states_from_app acc cs1 cs2 :
  states_from acc (cs1 ++ cs2) = states_from (states_from acc cs1) cs2.
Proof. revert acc. induction cs1 as [|c cs1 IH]; intros acc; simpl; auto. Qed.

Lemma states_from_length acc cs :
  length (states_from acc cs) = (length acc + length cs)%nat.
Proof.
  revert acc. induction cs as [|c cs IH]; intros acc; simpl; [lia|].
  rewrite IH, length_app. simpl. lia.
Qed.

(** The four promises of one [$begin], the first of them at position [n]:
    [txClient], [txPromise], the promise the callback returns and the one
    [$transaction] returns. *)
Definition block (n : nat) (c : value) (s : pstate) (f : option value) : list cell :=
  [Plain (Fulfilled c); Plain s; Caught (S n); Scope (S (S n)) f].

Lemma states_block (pw : list cell) c s f :
  states_from [] (pw ++ block (length pw) c s f) =
  states_from [] pw ++
    [Fulfilled c; s; catch on_rejected s; scope_state f (catch on_rejected s)].
Proof.
  rewrite states_from_app. set (S0 := states_from [] pw).
  assert (length S0 = length pw) as Hlen
    by (unfold S0; rewrite states_from_length; simpl; lia).
  unfold block. simpl. rewrite <- Hlen.
  replace (((S0 ++ [Fulfilled c]) ++ [s]) !! S (length S0)) with (Some s).
  2:{ rewrite <- app_assoc. rewrite lookup_app_r by lia.
      replace (S (length S0) - length S0)%nat with 1%nat by lia. done. }
  simpl.
  replace ((((S0 ++ [Fulfilled c]) ++ [s]) ++ [catch on_rejected s]) !! S (S (length S0)))
    with (Some (catch on_rejected s)).
  2:{ rewrite <- !app_assoc. rewrite lookup_app_r by lia.
      replace (S (S (length S0)) - length S0)%nat with 2%nat by lia. done. }
  simpl. by rewrite <- !app_assoc.
Qed.

Lemma state_of_block objs (pw : list cell) c s f :
  let w := {| objects := objs; promises := pw ++ block (length pw) c s f |} in
  state_of w (S (length pw)) = s /\
  state_of w (S (S (length pw))) = catch on_rejected s /\
  state_of w (S (S (S (length pw)))) = scope_state f (catch on_rejected s).
Proof.
  cbv zeta. unfold state_of. simpl. rewrite states_block.
  assert (length (states_from [] pw) = length pw) as Hlen
    by (rewrite states_from_length; simpl; lia).
  repeat split.
  - rewrite lookup_app_r by lia.
    replace (S (length pw) - length (states_from [] pw))%nat with 1%nat by lia. done.
  - rewrite lookup_app_r by lia.
    replace (S (S (length pw)) - length (states_from [] pw))%nat with 2%nat by lia. done.
  - rewrite lookup_app_r by lia.
    replace (S (S (S (length pw))) - length (states_from [] pw))%nat with 3%nat by lia.
    done.
Qed.

Lemma settle_block objs (pw : list cell) c s f g :
  settle (S (length pw)) g {| objects := objs; promises := pw ++ block (length pw) c s f |}
  = (Return tt, {| objects := objs; promises := pw ++ block (length pw) c (g s) f |}).
Proof.
  unfold settle. simpl. do 2 f_equal.
  rewrite alter_app_r_alt by lia.
  replace (S (length pw) - length pw)%nat with 1%nat by lia. done.
Qed.

Lemma lookup_block (pw : list cell) c s f :
  (pw ++ block (length pw) c s f) !! S (S (S (length pw)))
    = Some (Scope (S (S (length pw))) f) /\
  (pw ++ block (length pw) c s f) !! S (S (length pw))
    = Some (Caught (S (length pw))).
Proof.
  split; rewrite lookup_app_r by lia.
  - replace (S (S (S (length pw))) - length pw)%nat with 3%nat by lia. done.
  - replace (S (S (length pw)) - length pw)%nat with 2%nat by lia. done.
Qed.

(** What [$begin] does on a client that has a [$transaction] function. *)
Lemma begin_supported (prisma : client) (t : scoped_transaction) (w : world) :
  transaction prisma = Some t ->
  begin prisma w =
    (Return {| target := tx_client t;
               txPromise := S (length (promises w));
               tx := S (S (S (length (promises w)))) |},
     {| objects := objects w;
        promises := promises w ++
                    block (length (promises w)) (tx_client t) Pending (own_failure t) |}).
Proof.
  intros Ht. unfold begin, bind, new_promise, settle, ret. simpl. rewrite Ht. simpl.
  rewrite !length_app, length_alter, !length_app. simpl.
  replace (length (promises w) + 1)%nat with (S (length (promises w))) by lia.
  replace (S (length (promises w)) + 1)%nat with (S (S (length (promises w)))) by lia.
  replace (S (S (length (promises w))) + 1)%nat
    with (S (S (S (length (promises w))))) by lia.
  do 2 f_equal. unfold block.
  rewrite <- !app_assoc. simpl.
  rewrite alter_app_r_alt by lia. rewrite Nat.sub_diag.
  by rewrite <- app_assoc.
Qed.

(** ... and on a client that has none. *)
Lemma begin_unsupported (prisma : client) (w : world) :
  transaction prisma = None ->
  begin prisma w =
    (Throw (VObj (fresh (dom (objects w)))),
     {| objects :=
          <[ fresh (dom (objects w)) :=
               {[ KStr "message" := VStr "Transactions are not supported by this client" ]} ]>
            (objects w);
        promises := promises w ++ [Plain Pending; Plain Pending] |}).
Proof.
  intros Ht. unfold begin, bind, new_promise, new_error, throw. simpl. rewrite Ht. simpl.
  by rewrite <- app_assoc.
Qed.

Lemma begin_returns (prisma : client) (w w1 : world) (h : handle) :
  begin prisma w = (Return h, w1) ->
  exists t, transaction prisma = Some t /\
    h = {| target := tx_client t; txPromise := S (length (promises w));
           tx := S (S (S (length (promises w)))) |} /\
    w1 = {| objects := objects w;
            promises := promises w ++
              block (length (promises w)) (tx_client t) Pending (own_failure t) |}.
Proof.
  destruct (transaction prisma) as [t|] eqn:Ht.
  - rewrite (begin_supported _ t) by done. intros [= <- <-]. eauto.
  - rewrite begin_unsupported by done. discriminate.
Qed.

Lemma on_rejected_sentinel (e : value) :
  (on_rejected e = Return VUndefined <-> e = ROLLBACK) /\
  (e <> ROLLBACK -> on_rejected e = Throw e).
Proof.
  unfold on_rejected. destruct (strict_eq e ROLLBACK) eqn:E.
  - apply strict_eq_true in E. split; [split; auto | congruence].
  - apply strict_eq_false in E. split; [split; [discriminate | congruence] | auto].
Qed.

Lemma rollback_block objs (pw : list cell) c s f :
  let h := {| target := c; txPromise := S (length pw);
              tx := S (S (S (length pw))) |} in
  let w := {| objects := objs; promises := pw ++ block (length pw) c s f |} in
  rollback h w =
    (Return (tx h),
     {| objects := objs; promises := pw ++ block (length pw) c (reject ROLLBACK s) f |}) /\
  commit h w =
    (Return (tx h),
     {| objects := objs; promises := pw ++ block (length pw) c (resolve VUndefined s) f |}).
Proof.
  cbv zeta. unfold rollback, commit, bind. cbn [txPromise tx].
  by rewrite !settle_block.
Qed.

(** C1: on a handle [$begin] produced, [$rollback] rejects the decision
    promise with the sentinel, the promise the callback returns is then
    fulfilled (with [undefined]), so that the scope completes as after a
    normal return and its promise is never rejected with the sentinel; and
    whatever value [e] the decision promise is rejected with, the callback
    promise is fulfilled exactly when [e] is the sentinel, and is rejected
    with [e] itself, as the scope's promise is, when [e] is anything else. *)
Theorem rollback_sentinel_intercepted (prisma : client) (w w1 : world) (h : handle) :
  begin prisma w = (Return h, w1) ->
  exists cb f,
    promises w1 !! tx h = Some (Scope cb f) /\
    promises w1 !! cb = Some (Caught (txPromise h)) /\
    (let w2 := (rollback h w1).2 in
     state_of w2 (txPromise h) = Rejected ROLLBACK /\
     state_of w2 cb = Fulfilled VUndefined /\
     state_of w2 (tx h) = scope_state f (Fulfilled VUndefined) /\
     (f <> Some ROLLBACK -> state_of w2 (tx h) <> Rejected ROLLBACK)) /\
    (forall e,
       let w2 := (settle (txPromise h) (reject e) w1).2 in
       state_of w2 (txPromise h) = Rejected e /\
       (state_of w2 cb = Fulfilled VUndefined <-> e = ROLLBACK) /\
       (e <> ROLLBACK ->
          state_of w2 cb = Rejected e /\ state_of w2 (tx h) = Rejected e)).
Proof.
  intros Hb. apply begin_returns in Hb as (t & Ht & -> & ->).
  set (pw := promises w).
  exists (S (S (length pw))), (own_failure t). cbn [tx txPromise promises].
  destruct (lookup_block pw (tx_client t) Pending (own_failure t)) as [L1 L2].
  split; [done|]. split; [done|]. split.
  - destruct (rollback_block (objects w) pw (tx_client t) Pending (own_failure t))
      as [-> _]. cbn [snd reject].
    destruct (state_of_block (objects w) pw (tx_client t) (Rejected ROLLBACK)
                (own_failure t)) as (S1 & S2 & S3).
    rewrite S1, S2, S3. simpl.
    repeat split. destruct (own_failure t) as [e|]; simpl; congruence.
  - intros e. rewrite settle_block. cbn [snd reject].
    destruct (state_of_block (objects w) pw (tx_client t) (Rejected e)
                (own_failure t)) as (S1 & S2 & S3).
    rewrite S1, S2, S3. cbn [catch].
    destruct (on_rejected_sentinel e) as [R1 R2].
    split; [done|]. split.
    + destruct (on_rejected e) as [v|e'] eqn:E.
      * split.
        -- intros [= ->]. by apply R1.
        -- intros He. apply R1 in He. congruence.
      * split; [discriminate|]. intros He. apply R1 in He. congruence.
    + intros Hne. rewrite (R2 Hne). simpl. done.
Qed.

(** C4, as the code has it: on a client without a [$transaction] function
    [$begin] throws a new error with the message "Transactions are not
    supported by this client" and opens no transaction, but it does so
    after the two promises have been created: they are there, pending. *)
Theorem begin_unsupported_after_promises (prisma : client) (w : world) :
  transaction prisma = None ->
  exists e w1,
    begin prisma w = (Throw e, w1) /\
    opt_get (objects w1) e "message"
      = VStr "Transactions are not supported by this client" /\
    opt_get (objects w) e "message" = VUndefined /\
    promises w1 = promises w ++ [Plain Pending; Plain Pending].
Proof.
  intros Ht. eexists _, _. split; [by apply begin_unsupported|]. simpl.
  rewrite lookup_insert_eq. split; [by rewrite lookup_singleton_eq|].
  split; [|done].
  assert (objects w !! fresh (dom (objects w)) = None) as ->; [|done].
  apply not_elem_of_dom, is_fresh.
Qed.

Lemma decided_block objs (pw : list cell) c s f (d : decision) :
  settled s = true ->
  let h := {| target := c; txPromise := S (length pw);
              tx := S (S (S (length pw))) |} in
  let w := {| objects := objs; promises := pw ++ block (length pw) c s f |} in
  decide_with h d w = (Return (tx h), w).
Proof.
  intros Hs. cbv zeta.
  destruct (rollback_block objs pw c s f) as [Hr Hc].
  destruct d; simpl; [rewrite Hc | rewrite Hr]; simpl.
  - by rewrite resolve_settled.
  - by rewrite reject_settled.
Qed.

Lemma decide_all_block objs (pw : list cell) c s f (ds : list decision) :
  settled s = true ->
  let h := {| target := c; txPromise := S (length pw);
              tx := S (S (S (length pw))) |} in
  let w := {| objects := objs; promises := pw ++ block (length pw) c s f |} in
  decide_all h ds w = (replicate (length ds) (tx h), w).
Proof.
  intros Hs. cbv zeta. induction ds as [|d ds IH]; [done|].
  cbn [decide_all]. rewrite decided_block by done. rewrite IH. done.
Qed.

(** C10: on a handle [$begin] produced, the first [$commit] or [$rollback]
    settles the decision promise, fulfilled for a commit and rejected with
    the sentinel for a rollback; every later call, of either kind, changes
    nothing at all; and every call returns the promise of the underlying
    transaction, always the same one. *)
Theorem first_decision_is_final (prisma : client) (w w1 : world) (h : handle)
    (d : decision) (ds : list decision) :
  begin prisma w = (Return h, w1) ->
  let first := decide_with h d w1 in
  let later := decide_all h ds first.2 in
  first.1 = Return (tx h) /\
  state_of w1 (txPromise h) = Pending /\
  state_of first.2 (txPromise h) =
    match d with
    | Commit => Fulfilled VUndefined
    | Rollback => Rejected ROLLBACK
    end /\
  later.1 = replicate (length ds) (tx h) /\
  later.2 = first.2 /\
  state_of later.2 (txPromise h) = state_of first.2 (txPromise h).
Proof.
  intros Hb. apply begin_returns in Hb as (t & Ht & -> & ->). cbv zeta.
  set (pw := promises w).
  destruct (rollback_block (objects w) pw (tx_client t) Pending (own_failure t))
    as [Hr Hc].
  destruct (state_of_block (objects w) pw (tx_client t) Pending (own_failure t))
    as (P1 & _).
  assert (decide_with
            {| target := tx_client t; txPromise := S (length pw);
               tx := S (S (S (length pw))) |} d
            {| objects := objects w;
               promises := pw ++ block (length pw) (tx_client t) Pending (own_failure t) |}
          = (Return (S (S (S (length pw)))),
             {| objects := objects w;
                promises := pw ++ block (length pw) (tx_client t)
                  (match d with
                   | Commit => Fulfilled VUndefined
                   | Rollback => Rejected ROLLBACK
                   end) (own_failure t) |})) as Hd.
  { destruct d; simpl; [rewrite Hc | rewrite Hr]; done. }
  rewrite Hd. simpl.
  rewrite decide_all_block by (by destruct d). simpl.
  destruct (state_of_block (objects w) pw (tx_client t)
              (match d with
               | Commit => Fulfilled VUndefined
               | Rollback => Rejected ROLLBACK
               end) (own_failure t)) as (D1 & _).
  repeat split; done.
Qed.

End TxnFacts.

(** A client with transactions, and one without. *)
Definition sample_client : Txn.client :=
  {| Txn.transaction :=
       Some {| Txn.tx_client := JS.VObj 7%nat; Txn.own_failure := None |} |}.

Definition bare_client : Txn.client := {| Txn.transaction := None |}.

Definition sample_handle : Txn.handle :=
  {| Txn.target := JS.VObj 7%nat; Txn.txPromise := 1%nat; Txn.tx := 3%nat |}.

Definition sample_world : Txn.world :=
  {| Txn.objects := Txn.objects Txn.initial_world;
     Txn.promises :=
       [Txn.Plain (JS.Fulfilled (JS.VObj 7%nat)); Txn.Plain JS.Pending;
        Txn.Caught 1%nat; Txn.Scope 2%nat None] |}.

Lemma rollback_sentinel_intercepted_witness :
  Txn.begin sample_client Txn.initial_world = (JS.Return sample_handle, sample_world) /\
  exists cb f,
    Txn.promises sample_world !! Txn.tx sample_handle = Some (Txn.Scope cb f) /\
    Txn.state_of (Txn.rollback sample_handle sample_world).2 cb
      = JS.Fulfilled JS.VUndefined.
Proof.
  split; [reflexivity|].
  destruct (rollback_sentinel_intercepted sample_client Txn.initial_world
              sample_world sample_handle eq_refl)
    as (cb & f & H1 & _ & (_ & H2 & _) & _).
  exists cb, f. split; [exact H1 | exact H2].
Defined.

(** A rollback and a commit on the sample handle. *)
Example sample_rollback_then_commit :
  let w2 := (Txn.rollback sample_handle sample_world).2 in
  let w3 := (Txn.commit sample_handle w2).2 in
  Txn.state_of w2 1%nat = JS.Rejected Txn.ROLLBACK /\
  Txn.state_of w2 2%nat = JS.Fulfilled JS.VUndefined /\
  Txn.state_of w2 3%nat = JS.Fulfilled JS.VUndefined /\
  w3 = w2.
Proof. repeat split. Qed.

(** An object with the shape of the sentinel is not the sentinel. *)
Example forged_sentinel_propagates :
  Txn.on_rejected (JS.VObj 5%nat) = JS.Throw (JS.VObj 5%nat) /\
  Txn.on_rejected Txn.ROLLBACK = JS.Return JS.VUndefined.
Proof. split; reflexivity. Qed.

Lemma begin_unsupported_after_promises_witness :
  Txn.transaction bare_client = None /\
  exists e w1,
    Txn.begin bare_client Txn.initial_world = (JS.Throw e, w1) /\
    JS.opt_get (Txn.objects w1) e "message"
      = JS.VStr "Transactions are not supported by this client" /\
    JS.opt_get (Txn.objects Txn.initial_world) e "message" = JS.VUndefined /\
    Txn.promises w1 = Txn.promises Txn.initial_world ++ [Txn.Plain JS.Pending; Txn.Plain JS.Pending].
Proof.
  split; [reflexivity|].
  exact (begin_unsupported_after_promises bare_client Txn.initial_world eq_refl).
Defined.

(** C4 fails as stated: when [$begin] throws on a client without
    [$transaction], starting with no promise at all, the two promises
    exist already. *)
Lemma begin_unsupported_creates_promises_first :
  Txn.promises Txn.initial_world = [] /\
  exists e w1,
    Txn.begin bare_client Txn.initial_world = (JS.Throw e, w1) /\
    Txn.promises w1 = [Txn.Plain JS.Pending; Txn.Plain JS.Pending].
Proof.
  split; [reflexivity|]. eexists _, _.
  split; [by apply begin_unsupported|]. reflexivity.
Qed.

Lemma first_decision_is_final_witness :
  Txn.begin sample_client Txn.initial_world = (JS.Return sample_handle, sample_world) /\
  let first := Txn.decide_with sample_handle Txn.Rollback sample_world in
  let later := Txn.decide_all sample_handle [Txn.Commit; Txn.Rollback] first.2 in
  first.1 = JS.Return (Txn.tx sample_handle) /\
  Txn.state_of sample_world (Txn.txPromise sample_handle) = JS.Pending /\
  Txn.state_of first.2 (Txn.txPromise sample_handle) = JS.Rejected Txn.ROLLBACK /\
  later.1 = replicate 2 (Txn.tx sample_handle) /\
  later.2 = first.2 /\
  Txn.state_of later.2 (Txn.txPromise sample_handle)
    = Txn.state_of first.2 (Txn.txPromise sample_handle).
Proof.
  split; [reflexivity|].
  exact (first_decision_is_final sample_client Txn.initial_world sample_world
           sample_handle Txn.Rollback [Txn.Commit; Txn.Rollback] eq_refl).
Defined.

(** ** The sampling engine *)

Section SamplingFacts.
Import JS Sampling.

Lemma random_skip_nonneg (r : Q) (n : Z) : 0 <= random_skip r n.
Proof. unfold random_skip. lia. Qed.

(** A result of [Math.random()] gives an offset below the counter. *)
Lemma random_skip_lt (r : Q) (n : Z) :
  (0 <= r)%Q -> (r < 1)%Q -> 0 < n -> random_skip r n < n.
Proof.
  intros H0 H1 Hn. unfold random_skip.
  assert (Qfloor (r * inject_Z n) < n); [|lia].
  rewrite Zlt_Qlt.
  apply Qle_lt_trans with (r * inject_Z n)%Q; [apply Qfloor_le|].
  rewrite <- (Qmult_1_l (inject_Z n)) at 2.
  apply Qmult_lt_compat_r; [|done].
  rewrite Zlt_Qlt in Hn. exact Hn.
Qed.

Lemma project_id (sel : option (list string)) (r : row) :
  id (project sel r) = id r.
Proof. by destruct sel. Qed.

Lemma rowIds_of_push (s : state) (x : string) :
  default [] (push rowIds x (heap s) !! rowIds) = rowIds_of s ++ [x].
Proof. unfold push, rowIds_of. by rewrite lookup_insert_eq. Qed.

(** A record found under the filter with the exclusion is not excluded. *)
Lemma findFirst_not_excluded (σ : arrays) (db : list row) (w : where_t)
    (sel : option (list string)) (skip : Z) (r : row) :
  findFirst σ db (spread_notIn w rowIds) sel skip = Some r ->
  id r ∉ default [] (σ !! rowIds).
Proof.
  unfold findFirst. intros H.
  apply fmap_Some in H as (r0 & Hl & ->). rewrite project_id.
  apply list_elem_of_lookup_2 in Hl. unfold population in Hl.
  apply list_elem_of_filter in Hl as [Hm _].
  unfold matches in Hm. simpl in Hm.
  apply andb_prop_elim in Hm as [_ Hm].
  apply negb_prop_elim in Hm. intros Hin. apply Hm.
  by apply bool_decide_pack.
Qed.

Lemma count_nonneg (σ : arrays) (db : list row) (w : where_t) : 0 <= count σ db w.
Proof. unfold count. lia. Qed.

Lemma guard_true (num : Z) (s : state) :
  guard num s = true <-> i s < num /\ 0 < numRows s.
Proof. unfold guard. rewrite andb_true_iff, !Z.ltb_lt. done. Qed.

(** The two ways the body ends. *)
Lemma body_next (e : env) (sel : option (list string)) (w : where_t) (s s' : state) :
  body e sel w s = Next s' ->
  exists row,
    findFirst (heap s) (db_at e (requests s)) w sel
      (random_skip (random e (draws s)) (numRows s)) = Some row /\
    s' = {| i := i s; numRows := numRows s - 1; rows := rows s ++ [row];
            heap := push rowIds (id row) (heap s);
            requests := S (requests s); draws := S (draws s);
            console := console s |}.
Proof.
  unfold body. destruct (findFirst _ _ _ _ _) as [row|]; [|discriminate].
  intros [= <-]. eauto.
Qed.

Lemma body_break (e : env) (sel : option (list string)) (w : where_t) (s s' : state) :
  body e sel w s = Break s' ->
  findFirst (heap s) (db_at e (requests s)) w sel
    (random_skip (random e (draws s)) (numRows s)) = None /\
  s' = {| i := i s; numRows := numRows s; rows := rows s; heap := heap s;
          requests := S (requests s); draws := S (draws s);
          console := console s ++ [GetRandomRowFailed w (rowIds_of s)] |}.
Proof.
  unfold body. destruct (findFirst _ _ _ _ _) as [row|]; [discriminate|].
  intros [= <-]. eauto.
Qed.

Context (e : env) (num : Z) (args : option findManyRandomArgs).

Lemma reachable_invariant (s : state) :
  reachable e num args s ->
  0 <= numRows s /\ NoDup (rowIds_of s) /\ rowIds_of s = id <$> rows s.
Proof.
  induction 1 as [|s s' Hr (IH1 & IH2 & IH3) Hg Hb].
  - unfold entry, rowIds_of. simpl. rewrite lookup_singleton_eq. simpl.
    split; [apply count_nonneg|]. split; [constructor | done].
  - apply guard_true in Hg as [_ Hg].
    apply body_next in Hb as (row & Hf & ->).
    apply findFirst_not_excluded in Hf.
    assert (rowIds_of (increment
              {| i := i s; numRows := numRows s - 1; rows := rows s ++ [row];
                 heap := push rowIds (id row) (heap s);
                 requests := S (requests s); draws := S (draws s);
                 console := console s |}) = rowIds_of s ++ [id row]) as ->
      by apply rowIds_of_push.
    simpl. split; [lia|]. split.
    + apply NoDup_app. split; [done|]. split; [|apply NoDup_singleton].
      intros x Hx Hx'. apply list_elem_of_singleton in Hx'. by subst.
    + rewrite fmap_app. simpl. by rewrite IH3.
Qed.

(** C3: at every test of the loop condition in a call of [findManyRandom]
    the counter is not negative and the excluded identifiers are pairwise
    distinct, and the loop is left when the counter is zero; a successful
    draw appends one identifier, which was not excluded before, to the
    excluded ones and lowers the counter by exactly one; a failed draw
    changes neither; the increment of [i] changes neither. *)
Theorem exclusion_grows_counter_decreases (s : state) :
  reachable e num args s ->
  let sel := select_of args in
  let w := spread_notIn (where_of args) rowIds in
  0 <= numRows s /\
  NoDup (rowIds_of s) /\
  (numRows s = 0 -> guard num s = false) /\
  (forall s', guard num s = true -> body e sel w s = Next s' ->
     exists row,
       rows s' = rows s ++ [row] /\
       rowIds_of s' = rowIds_of s ++ [id row] /\
       (id row ∉ rowIds_of s) /\
       numRows s' = numRows s - 1 /\
       0 <= numRows s') /\
  (forall s', body e sel w s = Break s' ->
     rowIds_of s' = rowIds_of s /\ numRows s' = numRows s /\ rows s' = rows s) /\
  (forall s', rowIds_of (increment s') = rowIds_of s' /\
              numRows (increment s') = numRows s').
Proof.
  intros Hr. cbv zeta.
  destruct (reachable_invariant s Hr) as (I1 & I2 & _).
  split; [done|]. split; [done|]. split; [|split; [|split]].
  - intros H0. unfold guard. rewrite H0. simpl. apply andb_false_r.
  - intros s' Hg Hb. apply guard_true in Hg as [_ Hg].
    apply body_next in Hb as (row & Hf & ->).
    apply findFirst_not_excluded in Hf. exists row. simpl.
    split; [done|]. split; [apply rowIds_of_push|]. split; [done|]. lia.
  - intros s' Hb. apply body_break in Hb as [_ ->]. done.
  - done.
Qed.

Abbreviation sel := (select_of args).
Abbreviation w' := (spread_notIn (where_of args) rowIds).

Lemma body_i (s s' : state) :
  (body e sel w' s = Next s' \/ body e sel w' s = Break s') -> i s' = i s.
Proof.
  intros [H|H]; [apply body_next in H as (? & _ & ->) | apply body_break in H as [_ ->]];
    done.
Qed.

(** The loop ends within [num - i] runs of its body: it always returns. *)
Lemma for_loop_total (fuel : nat) (s : state) :
  num - i s <= Z.of_nat fuel ->
  is_Some (for_loop fuel e sel w' num s).
Proof.
  revert s. induction fuel as [|fuel IH]; intros s Hf; simpl.
  - destruct (guard num s) eqn:Hg; [|eauto].
    apply guard_true in Hg. lia.
  - destruct (guard num s) eqn:Hg; [|eauto].
    destruct (body e sel w' s) as [s'|s'] eqn:Hb; [|eauto].
    apply IH. simpl. rewrite (body_i s s') by auto. lia.
Qed.

Lemma findManyRandom_total : is_Some (findManyRandom e num args).
Proof.
  unfold findManyRandom, run. apply fmap_is_Some, for_loop_total. simpl. lia.
Qed.

(** From each state the call goes through, the rest of the loop gives the
    result of the call. *)
Lemma run_from_reachable (s : state) :
  reachable e num args s ->
  exists fuel, num - i s <= Z.of_nat fuel /\
    run e num args = for_loop fuel e sel w' num s.
Proof.
  induction 1 as [|s s' Hr (fuel & Hf & IH) Hg Hb].
  - exists (Z.to_nat num). split; [simpl; lia | done].
  - destruct fuel as [|fuel].
    + apply guard_true in Hg. lia.
    + exists fuel. split.
      * simpl. rewrite (body_i s s') by auto. lia.
      * rewrite IH. simpl. by rewrite Hg, Hb.
Qed.

(** A failed draw ends the call with the rows collected so far and one
    more diagnostic. *)
Lemma failed_draw_returns (s : state) :
  reachable e num args s -> guard num s = true ->
  findFirst (heap s) (db_at e (requests s)) w' sel
    (random_skip (random e (draws s)) (numRows s)) = None ->
  exists s', run e num args = Some s' /\
    rows s' = rows s /\
    console s' = console s ++ [GetRandomRowFailed w' (rowIds_of s)].
Proof.
  intros Hr Hg Hf. destruct (run_from_reachable s Hr) as (fuel & Hfuel & ->).
  destruct fuel as [|fuel]; [apply guard_true in Hg; lia|].
  simpl. rewrite Hg. unfold body. rewrite Hf. eauto.
Qed.

End SamplingFacts.

(** *** Draws on records that do not change during the call *)

Section StaticSampling.
Import JS Sampling.

Lemma NoDup_fmap_filter {A B} (f : A -> B) (P : A -> Prop) `{!forall x, Decision (P x)}
    (l : list A) :
  NoDup (f <$> l) -> NoDup (f <$> filter P l).
Proof.
  induction l as [|x l IH]; [done|]. rewrite fmap_cons, NoDup_cons.
  intros [Hx Hl]. rewrite filter_cons. destruct (decide (P x)); [|auto].
  rewrite fmap_cons, NoDup_cons. split; [|auto].
  intros Hin. apply Hx. apply list_elem_of_fmap in Hin as (y & -> & Hy).
  apply list_elem_of_filter in Hy as [_ Hy]. by apply list_elem_of_fmap_2.
Qed.

(** Excluding [k] identifiers of records with distinct identifiers leaves
    [k] records fewer. *)
Lemma filter_notin_length {A} (f : A -> string) (M : list A) (ids : list string) :
  NoDup (f <$> M) -> NoDup ids -> (forall x, x ∈ ids -> x ∈ f <$> M) ->
  (length (filter (fun r => f r ∉ ids) M) + length ids = length M)%nat.
Proof.
  intros HM Hids Hsub.
  assert ((f <$> filter (fun r => f r ∉ ids) M) ++ ids ≡ₚ f <$> M) as HP.
  { apply NoDup_Permutation; [|done|].
    - apply NoDup_app. split; [by apply NoDup_fmap_filter|]. split; [|done].
      intros x Hx. apply list_elem_of_fmap in Hx as (r & -> & Hr).
      by apply list_elem_of_filter in Hr as [Hr _].
    - intros x. rewrite elem_of_app. split.
      + intros [Hx|Hx]; [|auto].
        apply list_elem_of_fmap in Hx as (r & -> & Hr).
        apply list_elem_of_filter in Hr as [_ Hr]. by apply list_elem_of_fmap_2.
      + intros Hx. apply list_elem_of_fmap in Hx as (r & -> & Hr).
        destruct (decide (f r ∈ ids)); [by right|]. left.
        apply list_elem_of_fmap_2. by apply list_elem_of_filter. }
  apply Permutation_length in HP.
  rewrite length_app, !length_fmap in HP. exact HP.
Qed.

Context (e : env) (num : Z) (args : option findManyRandomArgs) (db : list row).

Abbreviation w0 := (where_of args).
Abbreviation sel0 := (select_of args).

Hypothesis static : forall t, db_at e t = db.
Hypothesis unique_ids : NoDup (id <$> db).
Hypothesis no_id_entry : where_id w0 = None.
Hypothesis unit_interval : forall k, (0 <= random e k)%Q /\ (random e k < 1)%Q.

Lemma population_spread (σ : arrays) :
  population σ db (spread_notIn w0 rowIds) =
  filter (fun r => id r ∉ default [] (σ !! rowIds)) (population ∅ db w0).
Proof.
  unfold population. rewrite list_filter_filter. apply list_filter_iff.
  intros r. unfold matches. rewrite no_id_entry. simpl.
  rewrite !andb_True, negb_True, bool_decide_spec.
  assert (Is_true true) by done. tauto.
Qed.

Definition static_inv (s : state) : Prop :=
  rowIds_of s = id <$> rows s /\
  NoDup (rowIds_of s) /\
  (forall r, r ∈ rows s ->
     exists r0, r0 ∈ db /\ matches ∅ w0 r0 = true /\ r = project sel0 r0) /\
  numRows s = count ∅ db w0 - Z.of_nat (length (rows s)) /\
  i s = Z.of_nat (length (rows s)) /\
  i s <= Z.max 0 num /\
  0 <= numRows s.

Lemma static_inv_entry : static_inv (entry e w0).
Proof.
  unfold static_inv, entry, rowIds_of. simpl.
  rewrite lookup_singleton_eq, static. simpl.
  repeat split; try done; try lia.
  - constructor.
  - intros r Hr. by apply elem_of_nil in Hr.
  - apply count_nonneg.
Qed.

Lemma static_population_size (s : state) :
  static_inv s ->
  Z.of_nat (length (population (heap s) db (spread_notIn w0 rowIds))) = numRows s.
Proof.
  intros (I1 & I2 & I3 & I4 & _).
  rewrite population_spread. fold (rowIds_of s).
  pose proof (filter_notin_length id (population ∅ db w0) (rowIds_of s)) as HL.
  rewrite I4. unfold count.
  assert (length (rowIds_of s) = length (rows s)) as Hlen
    by (by rewrite I1, length_fmap).
  rewrite <- Hlen. rewrite <- HL; [lia | | done |].
  - unfold population. by apply NoDup_fmap_filter.
  - intros x Hx. rewrite I1 in Hx.
    apply list_elem_of_fmap in Hx as (r & -> & Hr).
    destruct (I3 r Hr) as (r0 & Hdb & Hm & ->). rewrite project_id.
    apply list_elem_of_fmap_2. unfold population. apply list_elem_of_filter.
    split; [by rewrite Hm | done].
Qed.

Lemma static_step (s : state) :
  static_inv s -> guard num s = true ->
  exists s', body e sel0 (spread_notIn w0 rowIds) s = Next s' /\
    static_inv (increment s') /\ console s' = console s.
Proof.
  intros Hinv Hg. pose proof (static_population_size s Hinv) as Hsize.
  destruct Hinv as (I1 & I2 & I3 & I4 & I5 & I6 & I7).
  apply guard_true in Hg as [Hi Hn].
  destruct (unit_interval (draws s)) as [U0 U1].
  pose proof (random_skip_lt _ _ U0 U1 Hn) as Hlt.
  pose proof (random_skip_nonneg (random e (draws s)) (numRows s)) as Hge.
  set (skip := random_skip (random e (draws s)) (numRows s)) in *.
  destruct (lookup_lt_is_Some_2
              (population (heap s) db (spread_notIn w0 rowIds)) (Z.to_nat skip))
    as [r0 Hr0]; [lia|].
  assert (findFirst (heap s) (db_at e (requests s)) (spread_notIn w0 rowIds) sel0 skip
          = Some (project sel0 r0)) as Hf.
  { unfold findFirst. rewrite static, Hr0. done. }
  pose proof (findFirst_not_excluded _ _ _ _ _ _ Hf) as Hnew.
  rewrite project_id in Hnew. fold (rowIds_of s) in Hnew.
  apply list_elem_of_lookup_2 in Hr0. rewrite population_spread in Hr0.
  apply list_elem_of_filter in Hr0 as [_ Hr0].
  unfold population in Hr0. apply list_elem_of_filter in Hr0 as [Hm Hdb].
  eexists. split; [unfold body; fold skip; rewrite Hf; reflexivity|].
  split; [|done].
  unfold static_inv.
  assert (rowIds_of (increment
            {| i := i s; numRows := numRows s - 1;
               rows := rows s ++ [project sel0 r0];
               heap := push rowIds (id (project sel0 r0)) (heap s);
               requests := S (requests s); draws := S (draws s);
               console := console s |}) = rowIds_of s ++ [id (project sel0 r0)]) as ->
    by apply rowIds_of_push.
  unfold increment. cbn [i numRows rows].
  rewrite project_id, length_app, fmap_app, list_fmap_singleton, project_id.
  cbn [length].
  split; [by rewrite I1|]. split.
  { apply NoDup_app. split; [done|]. split; [|apply NoDup_singleton].
    intros x Hx Hx'. apply list_elem_of_singleton in Hx'. by subst. }
  split.
  { intros r Hr. apply elem_of_app in Hr as [Hr|Hr]; [auto|].
    apply list_elem_of_singleton in Hr. subst. exists r0.
    split; [done|]. split; [by apply Is_true_eq_true | done]. }
  lia.
Qed.

Lemma static_loop (fuel : nat) (s : state) :
  static_inv s -> num - i s <= Z.of_nat fuel ->
  exists s', for_loop fuel e sel0 (spread_notIn w0 rowIds) num s = Some s' /\
    static_inv s' /\ guard num s' = false /\ console s' = console s.
Proof.
  revert s. induction fuel as [|fuel IH]; intros s Hinv Hf; simpl.
  - destruct (guard num s) eqn:Hg; [apply guard_true in Hg; lia | eauto].
  - destruct (guard num s) eqn:Hg; [|eauto].
    destruct (static_step s Hinv Hg) as (s' & Hb & Hinv' & Hc). rewrite Hb.
    destruct (IH (increment s') Hinv') as (s'' & Hl & ? & ? & Hc').
    + simpl. rewrite (body_i e args s s') by auto. lia.
    + exists s''. simpl in Hc'. rewrite Hc' , Hc. auto.
Qed.

(** On records that do not change during the call and have pairwise
    distinct identifiers, with a filter that has no entry [id] of its
    own, [findManyRandom(num, { where, select })]
    returns exactly min(max(num, 0), P) rows, P being the number of
    records that match the filter; the rows have pairwise distinct
    identifiers and each is the selection of a record that matches the
    filter; and no diagnostic is written. *)
Theorem findManyRandom_draws_without_replacement :
  exists s,
    run e num args = Some s /\
    findManyRandom e num args = Some (rows s) /\
    Z.of_nat (length (rows s)) = Z.min (Z.max 0 num) (count ∅ db w0) /\
    NoDup (id <$> rows s) /\
    (forall r, r ∈ rows s ->
       exists r0, r0 ∈ db /\ matches ∅ w0 r0 = true /\ r = project sel0 r0) /\
    console s = [].
Proof.
  destruct (static_loop (Z.to_nat num) (entry e w0) static_inv_entry)
    as (s & Hrun & (I1 & I2 & I3 & I4 & I5 & I6 & I7) & Hg & Hc); [simpl; lia|].
  exists s. unfold findManyRandom, run. rewrite Hrun. simpl.
  split; [done|]. split; [done|]. split; [|split; [|split]].
  - unfold guard in Hg. apply andb_false_iff in Hg.
    rewrite !Z.ltb_ge in Hg. pose proof (count_nonneg ∅ db w0). lia.
  - by rewrite <- I1.
  - done.
  - done.
Qed.

End StaticSampling.

(** *** Empty populations and failed draws *)

Section SamplingRecovery.
Import JS Sampling.

Lemma count_zero_population (σ : arrays) (db : list row) (w : where_t) :
  count σ db w = 0 -> population σ db w = [].
Proof.
  unfold count. intros H. apply length_zero_iff_nil. lia.
Qed.

(** C9: when no record matches the filter while the call is served,
    [findRandom] returns [null]; when the count is zero,
    [findManyRandom] returns the empty list and writes no diagnostic; and
    when a draw of [findManyRandom] finds no record, the call ends there:
    it returns the rows collected up to that draw and has written one
    more diagnostic.  None of the three ends in an error. *)
Theorem sampling_recovers_locally (e : env) :
  (forall args : option findFirstArgs,
     let w := nullish (args ≫= first_where) empty_where in
     count ∅ (db_at e 0%nat) w = 0 -> count ∅ (db_at e 1%nat) w = 0 ->
     findRandom e args = None) /\
  (forall (num : Z) (args : option findManyRandomArgs),
     count ∅ (db_at e 0%nat) (where_of args) = 0 ->
     exists s, run e num args = Some s /\ rows s = [] /\ console s = [] /\
       findManyRandom e num args = Some []) /\
  (forall (num : Z) (args : option findManyRandomArgs) (s : state),
     reachable e num args s -> guard num s = true ->
     findFirst (heap s) (db_at e (requests s)) (spread_notIn (where_of args) rowIds)
       (select_of args) (random_skip (random e (draws s)) (numRows s)) = None ->
     exists s', run e num args = Some s' /\
       rows s' = rows s /\
       console s' = console s ++
         [GetRandomRowFailed (spread_notIn (where_of args) rowIds) (rowIds_of s)] /\
       findManyRandom e num args = Some (rows s)).
Proof.
  split; [|split].
  - intros args w _ H1. unfold findRandom, findFirst. fold w.
    by rewrite (count_zero_population _ _ _ H1).
  - intros num args H0. exists (entry e (where_of args)).
    assert (run e num args = Some (entry e (where_of args))) as Hrun.
    { unfold run. destruct (Z.to_nat num); simpl;
        unfold guard; simpl; rewrite H0; simpl; by rewrite andb_false_r. }
    unfold findManyRandom. rewrite Hrun. done.
  - intros num args s Hr Hg Hf.
    destruct (failed_draw_returns e num args s Hr Hg Hf) as (s' & Hrun & Hrows & Hc).
    exists s'. unfold findManyRandom. rewrite Hrun. simpl. by rewrite Hrows.
Qed.

End SamplingRecovery.

(** *** Runs on concrete records *)

Definition record_a : Sampling.row := {| Sampling.id := "a"; Sampling.fields := [] |}.
Definition record_b : Sampling.row := {| Sampling.id := "b"; Sampling.fields := [] |}.
Definition record_c : Sampling.row := {| Sampling.id := "c"; Sampling.fields := [] |}.

Definition three_records : list Sampling.row := [record_a; record_b; record_c].

(** Three records that stay, and a source of random numbers that always
    answers one half. *)
Definition steady_env : Sampling.env :=
  {| Sampling.db_at := fun _ => three_records; Sampling.random := fun _ => (1 # 2)%Q |}.

(** Two records, the one named "b" first, and a source that answers 0. *)
Definition b_first_env : Sampling.env :=
  {| Sampling.db_at := fun _ => [record_b; record_a];
     Sampling.random := fun _ => 0%Q |}.

(** [{ id: "a" }] *)
Definition where_id_a : Sampling.where_t :=
  {| Sampling.where_id := Some (Sampling.IdWhere (String.eqb "a"));
     Sampling.where_rest := fun _ => true |}.

(** Records that are deleted by someone else right after the count. *)
Definition vanishing_env : Sampling.env :=
  {| Sampling.db_at := fun t => match t with O => three_records | _ => [] end;
     Sampling.random := fun _ => 0%Q |}.

Example findManyRandom_two_of_three :
  Sampling.findManyRandom steady_env 2 None = Some [record_b; record_c] /\
  Sampling.findManyRandom steady_env 5 None = Some [record_b; record_c; record_a] /\
  Sampling.findRandom steady_env None = Some record_b.
Proof. repeat split; vm_compute; reflexivity. Qed.

Example findManyRandom_shortfall :
  (Sampling.rows <$> Sampling.run vanishing_env 2 None) = Some [] /\
  (length ∘ Sampling.console <$> Sampling.run vanishing_env 2 None) = Some 1%nat.
Proof. split; vm_compute; reflexivity. Qed.

Lemma findManyRandom_draws_without_replacement_witness :
  (forall t, Sampling.db_at steady_env t = three_records) /\
  NoDup (Sampling.id <$> three_records) /\
  Sampling.where_id (Sampling.where_of None) = None /\
  (forall k, (0 <= Sampling.random steady_env k)%Q /\ (Sampling.random steady_env k < 1)%Q) /\
  exists s,
    Sampling.run steady_env 2 None = Some s /\
    Sampling.findManyRandom steady_env 2 None = Some (Sampling.rows s) /\
    Z.of_nat (length (Sampling.rows s))
      = Z.min (Z.max 0 2) (Sampling.count ∅ three_records (Sampling.where_of None)) /\
    NoDup (Sampling.id <$> Sampling.rows s) /\
    (forall r, r ∈ Sampling.rows s ->
       exists r0, r0 ∈ three_records /\
         Sampling.matches ∅ (Sampling.where_of None) r0 = true /\
         r = Sampling.project (Sampling.select_of None) r0) /\
    Sampling.console s = [].
Proof.
  assert (forall t, Sampling.db_at steady_env t = three_records) as H1
    by (intros t; reflexivity).
  assert (NoDup (Sampling.id <$> three_records)) as H2
    by (apply (bool_decide_unpack _); vm_compute; exact I).
  assert (forall k, (0 <= Sampling.random steady_env k)%Q /\
                    (Sampling.random steady_env k < 1)%Q) as H4
    by (intros k; split; [discriminate | reflexivity]).
  split; [exact H1|]. split; [exact H2|]. split; [reflexivity|]. split; [exact H4|].
  exact (findManyRandom_draws_without_replacement steady_env 2 None three_records
           H1 H2 eq_refl H4).
Defined.

(** C2: [findManyRandom(1, { where: { id: "a" } })] on the records "b" and
    "a", kept in this order, with a random number 0.  One record matches
    the filter and the count is 1; the call returns one row, as the claim
    says, but the row is the record "b", which does not match the filter:
    the entry [id] of the filter was replaced by the exclusion, so the
    draw ran over both records. *)
Lemma findManyRandom_overrides_id_filter :
  let args :=
    Some {| Sampling.many_where := Some where_id_a; Sampling.many_select := None |} in
  Sampling.count ∅ [record_b; record_a] where_id_a = 1 /\
  Sampling.population ∅ [record_b; record_a] where_id_a = [record_a] /\
  Sampling.where_id (Sampling.spread_notIn where_id_a Sampling.rowIds)
    = Some (Sampling.IdNotIn Sampling.rowIds) /\
  Sampling.findManyRandom b_first_env 1 args = Some [record_b] /\
  Sampling.matches ∅ where_id_a record_b = false.
Proof.
  cbv zeta. repeat split; vm_compute; reflexivity.
Qed.

(** The state of the call on the three steady records after its first
    draw, which found the record "b". *)
Definition first_draw : Sampling.state :=
  {| Sampling.i := 0; Sampling.numRows := 2; Sampling.rows := [record_b];
     Sampling.heap := Sampling.push Sampling.rowIds "b" {[ Sampling.rowIds := [] ]};
     Sampling.requests := 2; Sampling.draws := 1; Sampling.console := [] |}.

Lemma exclusion_grows_counter_decreases_witness :
  Sampling.reachable steady_env 2 None (Sampling.increment first_draw) /\
  0 <= Sampling.numRows (Sampling.increment first_draw) /\
  NoDup (Sampling.rowIds_of (Sampling.increment first_draw)).
Proof.
  assert (Sampling.reachable steady_env 2 None (Sampling.increment first_draw)) as Hr.
  { apply (Sampling.reach_next steady_env 2 None _ first_draw
             (Sampling.reach_entry _ _ _)).
    - reflexivity.
    - vm_compute. reflexivity. }
  split; [exact Hr|].
  destruct (exclusion_grows_counter_decreases steady_env 2 None
              (Sampling.increment first_draw) Hr)
    as (H1 & H2 & _).
  split; [exact H1 | exact H2].
Defined.

(** * Further properties *)

(** ** What every call of [findManyRandom] guarantees *)

Section SamplingAnyRecords.
Import JS Sampling.

Context (e : env) (num : Z) (args : option findManyRandomArgs).

Abbreviation P0 := (count ∅ (db_at e 0%nat) (where_of args)).
Abbreviation sel1 := (select_of args).
Abbreviation w1 := (spread_notIn (where_of args) rowIds).

(** What the variables of the loop are worth in terms of the rows
    collected, at each test of the loop condition. *)
Lemma reachable_accounts (s : state) :
  reachable e num args s ->
  i s = Z.of_nat (length (rows s)) /\
  numRows s = P0 - Z.of_nat (length (rows s)) /\
  i s <= Z.max 0 num /\
  console s = [] /\
  requests s = S (length (rows s)) /\
  draws s = length (rows s) /\
  (forall r, r ∈ rows s ->
     exists t r0, (1 <= t)%nat /\ r0 ∈ db_at e t /\
       where_rest (where_of args) r0 = true /\ r = project sel1 r0).
Proof.
  induction 1 as [|s s' Hr (I1 & I2 & I3 & I4 & I5 & I6 & I7) Hg Hb].
  - simpl. repeat split; try lia.
    intros r Hr. by apply elem_of_nil in Hr.
  - apply guard_true in Hg as [Hi Hn].
    apply body_next in Hb as (row & Hf & ->).
    unfold increment. cbn [i numRows rows console requests draws].
    rewrite length_app. cbn [length].
    repeat split; try lia; try done.
    intros r Hin. apply elem_of_app in Hin as [Hin|Hin]; [auto|].
    apply list_elem_of_singleton in Hin. subst r.
    unfold findFirst in Hf. apply fmap_Some in Hf as (r0 & Hl & ->).
    apply list_elem_of_lookup_2 in Hl. unfold population in Hl.
    apply list_elem_of_filter in Hl as [Hm Hdb].
    unfold matches in Hm. apply andb_prop_elim in Hm as [Hm _].
    exists (requests s), r0. split; [lia|]. split; [done|].
    split; [by apply Is_true_eq_true | done].
Qed.

(** The call ends either at a test of the loop condition that fails, or
    at a draw that finds nothing. *)
Lemma for_loop_ends (fuel : nat) (s : state) :
  reachable e num args s -> num - i s <= Z.of_nat fuel ->
  exists s0, reachable e num args s0 /\
    ((guard num s0 = false /\ for_loop fuel e sel1 w1 num s = Some s0) \/
     (guard num s0 = true /\
      exists s', body e sel1 w1 s0 = Break s' /\
        for_loop fuel e sel1 w1 num s = Some s')).
Proof.
  revert s. induction fuel as [|fuel IH]; intros s Hr Hf; simpl.
  - destruct (guard num s) eqn:Hg; [apply guard_true in Hg; lia|].
    exists s. auto.
  - destruct (guard num s) eqn:Hg; [|exists s; auto].
    destruct (body e sel1 w1 s) as [s'|s'] eqn:Hb.
    + apply IH.
      * by apply (reach_next e num args s s').
      * simpl. rewrite (body_i e args s s') by auto. lia.
    + exists s. split; [done|]. right. eauto.
Qed.

Lemma run_ends :
  exists s0, reachable e num args s0 /\
    ((guard num s0 = false /\ run e num args = Some s0) \/
     (guard num s0 = true /\
      exists s', body e sel1 w1 s0 = Break s' /\ run e num args = Some s')).
Proof.
  unfold run. apply for_loop_ends; [apply reach_entry | simpl; lia].
Qed.

(** Whatever the records are and however they change during the call,
    whatever the filter and the random numbers: the call returns; the
    rows are at most [num], at most as many as the count found, and have
    pairwise distinct identifiers; at most one diagnostic is written, and
    without one the rows are exactly min(max(num, 0), count); one request
    is made for the count and one for each row and each diagnostic. *)
Theorem findManyRandom_bounds :
  exists s,
    run e num args = Some s /\
    findManyRandom e num args = Some (rows s) /\
    Z.of_nat (length (rows s)) <= Z.max 0 num /\
    Z.of_nat (length (rows s)) <= P0 /\
    NoDup (id <$> rows s) /\
    (length (console s) <= 1)%nat /\
    (console s = [] ->
       Z.of_nat (length (rows s)) = Z.min (Z.max 0 num) P0) /\
    (console s <> [] ->
       Z.of_nat (length (rows s)) < Z.min (Z.max 0 num) P0) /\
    requests s = (1 + length (rows s) + length (console s))%nat.
Proof.
  destruct run_ends as (s0 & Hr & Hend).
  destruct (reachable_invariant e num args s0 Hr) as (J1 & J2 & J3).
  destruct (reachable_accounts s0 Hr) as (I1 & I2 & I3 & I4 & I5 & I6 & _).
  pose proof (count_nonneg ∅ (db_at e 0%nat) (where_of args)) as HP.
  destruct Hend as [[Hg Hrun]|(Hg & s' & Hb & Hrun)].
  - exists s0. unfold findManyRandom. rewrite Hrun, I4. simpl.
    unfold guard in Hg. apply andb_false_iff in Hg. rewrite !Z.ltb_ge in Hg.
    repeat split; try lia; try done; by rewrite <- J3.
  - exists s'. unfold findManyRandom. rewrite Hrun.
    apply body_break in Hb as [_ ->]. simpl. rewrite I4. simpl.
    apply guard_true in Hg.
    repeat split; try lia; try done; try discriminate; by rewrite <- J3.
Qed.

(** Every row the call returns is the selection of a record that the model
    held at one of the draws and that satisfied the entries of the filter
    other than [id]. *)
Theorem findManyRandom_rows_were_fetched (rs : list row) (r : row) :
  findManyRandom e num args = Some rs -> r ∈ rs ->
  exists t r0, (1 <= t)%nat /\ r0 ∈ db_at e t /\
    where_rest (where_of args) r0 = true /\ r = project sel1 r0.
Proof.
  intros Hrs Hin. destruct run_ends as (s0 & Hr & Hend).
  destruct (reachable_accounts s0 Hr) as (_ & _ & _ & _ & _ & _ & I7).
  unfold findManyRandom in Hrs.
  destruct Hend as [[Hg Hrun]|(Hg & s' & Hb & Hrun)]; rewrite Hrun in Hrs;
    simpl in Hrs; injection Hrs as <-.
  - auto.
  - apply body_break in Hb as [_ ->]. auto.
Qed.

End SamplingAnyRecords.

(** ** [exists], [findRandom] and [findManyRandom] on the same records *)

Section Lookups.
Import JS Sampling Existence.

Lemma findFirst_whole (db : list row) (w : where_t) (skip : Z) :
  findFirst ∅ db w None skip = population ∅ db w !! Z.to_nat skip.
Proof.
  unfold findFirst. destruct (population ∅ db w !! Z.to_nat skip); done.
Qed.

Lemma population_elem (σ : arrays) (db : list row) (w : where_t) (r : row) :
  r ∈ population σ db w <-> r ∈ db /\ matches σ w r = true.
Proof.
  unfold population. rewrite list_elem_of_filter. split.
  - intros [Hm Hin]. split; [done | by apply Is_true_eq_true].
  - intros [Hin Hm]. split; [by apply Is_true_eq_left | done].
Qed.

(** [exists(where)] answers [true] exactly when the model holds a record
    that matches the filter, that is, when a count under the same filter
    is positive. *)
Theorem exists_iff_match (e : env) (w : option where_t) :
  (exists_ e w = true <->
     exists r, r ∈ db_at e 0%nat /\ matches ∅ (nullish w empty_where) r = true) /\
  (exists_ e w = true <-> 0 < count ∅ (db_at e 0%nat) (nullish w empty_where)).
Proof.
  unfold exists_, count. rewrite findFirst_whole. simpl.
  destruct (population ∅ (db_at e 0%nat) (nullish w empty_where)) as [|r0 l] eqn:E; simpl.
  - split; split; try discriminate; try lia.
    intros (r & Hr & Hm).
    assert (r ∈ population ∅ (db_at e 0%nat) (nullish w empty_where)) as Hin
      by (by apply population_elem).
    rewrite E in Hin. by apply elem_of_nil in Hin.
  - split; split; try done; try lia. intros _. exists r0.
    apply population_elem. rewrite E. apply list_elem_of_here.
Qed.

(** The record that [findRandom()] or [findRandom({ where })] returns is
    one of the records of the model, whole, and it matches the filter. *)
Theorem findRandom_returns_match (e : env) (args : option findFirstArgs) (r : row) :
  args ≫= first_select = None ->
  findRandom e args = Some r ->
  r ∈ db_at e 1%nat /\
  matches ∅ (nullish (args ≫= first_where) empty_where) r = true.
Proof.
  unfold findRandom. intros ->. rewrite findFirst_whole. intros Hl.
  by apply list_elem_of_lookup_2, population_elem in Hl.
Qed.

Lemma findRandom_none_count (e : env) (args : option findFirstArgs) :
  db_at e 1%nat = db_at e 0%nat ->
  (0 <= random e 0%nat)%Q -> (random e 0%nat < 1)%Q ->
  (findRandom e args = None <->
   count ∅ (db_at e 0%nat) (nullish (args ≫= first_where) empty_where) = 0).
Proof.
  intros Hs H0 H1. unfold findRandom, findFirst. rewrite Hs.
  set (w := nullish (args ≫= first_where) empty_where).
  rewrite fmap_None. split.
  - intros Hnone. pose proof (count_nonneg ∅ (db_at e 0%nat) w) as Hc.
    destruct (decide (count ∅ (db_at e 0%nat) w = 0)) as [|Hne]; [done|].
    pose proof (random_skip_lt _ (count ∅ (db_at e 0%nat) w) H0 H1) as Hlt.
    pose proof (random_skip_nonneg (random e 0%nat) (count ∅ (db_at e 0%nat) w)).
    apply lookup_ge_None in Hnone. unfold count in *. lia.
  - intros Hz. unfold count in Hz. apply lookup_ge_None. lia.
Qed.

(** On records that do not change between its two requests, a call
    [findRandom({ where, select })] with no other argument returns [null]
    only when no record matches the filter. *)
Theorem findRandom_null_iff_empty (e : env) (w : option where_t)
    (sel : option (list string)) :
  db_at e 1%nat = db_at e 0%nat ->
  (0 <= random e 0%nat)%Q -> (random e 0%nat < 1)%Q ->
  (findRandom e (Some {| first_where := w; first_select := sel |}) = None <->
   count ∅ (db_at e 0%nat) (nullish w empty_where) = 0).
Proof.
  apply (findRandom_none_count e (Some {| first_where := w; first_select := sel |})).
Qed.

Lemma exists_false_count (e : env) (w : option where_t) :
  exists_ e w = false <-> count ∅ (db_at e 0%nat) (nullish w empty_where) = 0.
Proof.
  unfold exists_, count. rewrite findFirst_whole. simpl.
  destruct (population ∅ (db_at e 0%nat) (nullish w empty_where)); simpl;
    split; try done; lia.
Qed.

Lemma for_loop_rows_grow (fuel : nat) (e : env) (sel : option (list string))
    (w : where_t) (num : Z) (s s' : state) :
  for_loop fuel e sel w num s = Some s' -> exists more, rows s' = rows s ++ more.
Proof.
  revert s. induction fuel as [|fuel IH]; intros s; simpl.
  - destruct (guard num s); [discriminate|]. intros [= <-]. exists [].
    by rewrite app_nil_r.
  - destruct (guard num s); [|intros [= <-]; exists []; by rewrite app_nil_r].
    destruct (body e sel w s) as [s1|s1] eqn:Hb.
    + apply body_next in Hb as (row & _ & ->). intros Hl.
      apply IH in Hl as (more & ->). simpl. exists (row :: more).
      by rewrite <- app_assoc.
    + apply body_break in Hb as [_ ->]. intros [= <-]. exists [].
      by rewrite app_nil_r.
Qed.

Lemma filter_length_mono {A} (P Q : A -> Prop) `{!forall x, Decision (P x)}
    `{!forall x, Decision (Q x)} (l : list A) :
  (forall x, P x -> Q x) -> (length (filter P l) <= length (filter Q l))%nat.
Proof.
  intros HPQ. induction l as [|x l IH]; [done|].
  rewrite !filter_cons. destruct (decide (P x)) as [HP|HP].
  - rewrite decide_True by auto. simpl. lia.
  - destruct (decide (Q x)); simpl; lia.
Qed.

(** Before the first draw nothing is excluded: the filter with the
    exclusion admits every record the caller's filter admits. *)
Lemma first_population (db : list row) (w : where_t) :
  (length (population ∅ db w)
   <= length (population {[ rowIds := [] ]} db (spread_notIn w rowIds)))%nat.
Proof.
  unfold population. apply filter_length_mono. intros r.
  unfold matches. simpl. rewrite lookup_singleton_eq. simpl.
  rewrite !andb_True. intros [? _]. split; done.
Qed.

(** On records that do not change, and asked for at least one row, the
    three functions agree on whether anything matches the filter:
    [exists] answers [false] exactly when [findRandom] returns [null],
    and exactly when [findManyRandom] returns the empty list. *)
Theorem exists_agrees_with_sampling (e : env) (db : list row) (num : Z)
    (w : option where_t) (sel many_sel : option (list string)) :
  (forall t, db_at e t = db) ->
  (forall k, (0 <= random e k)%Q /\ (random e k < 1)%Q) ->
  1 <= num ->
  (exists_ e w = false <->
     findRandom e (Some {| first_where := w; first_select := sel |}) = None) /\
  (exists_ e w = false <->
     findManyRandom e num (Some {| many_where := w; many_select := many_sel |})
       = Some []).
Proof.
  intros Hs Hr Hnum. destruct (Hr 0%nat) as [H0 H1].
  rewrite exists_false_count. split.
  - symmetry. apply (findRandom_none_count e
      (Some {| first_where := w; first_select := sel |})); [by rewrite !Hs | done..].
  - set (margs := Some {| many_where := w; many_select := many_sel |}).
    assert (where_of margs = nullish w empty_where) as Hw by done.
    unfold findManyRandom, run. rewrite Hw.
    set (w0 := nullish w empty_where).
    destruct (Z.to_nat num) as [|f] eqn:Hf; [lia|].
    pose proof (count_nonneg ∅ (db_at e 0%nat) w0) as Hc.
    cbn [for_loop]. unfold guard at 1. cbn [i numRows entry].
    destruct (decide (count ∅ (db_at e 0%nat) w0 = 0)) as [Hz|Hnz].
    + rewrite Hz. simpl. rewrite andb_false_r. simpl. done.
    + replace (0 <? num) with true by (symmetry; apply Z.ltb_lt; lia).
      replace (0 <? count ∅ (db_at e 0%nat) w0) with true
        by (symmetry; apply Z.ltb_lt; lia).
      simpl. split; [done|]. intros Hrun. exfalso.
      pose proof (random_skip_lt _ (count ∅ (db_at e 0%nat) w0) H0 H1) as Hlt.
      pose proof (random_skip_nonneg (random e 0%nat) (count ∅ (db_at e 0%nat) w0)).
      pose proof (first_population (db_at e 0%nat) w0) as Hpop.
      set (skip := random_skip (random e 0%nat) (count ∅ (db_at e 0%nat) w0)) in *.
      destruct (lookup_lt_is_Some_2
                  (population {[ rowIds := [] ]} (db_at e 0%nat) (spread_notIn w0 rowIds))
                  (Z.to_nat skip)) as [r0 Hr0].
      { unfold count in *. lia. }
      revert Hrun. unfold body. cbn [heap requests draws numRows entry].
      fold skip. unfold findFirst. rewrite Hs, <- (Hs 0%nat), Hr0. simpl.
      intros Hl. apply fmap_Some in Hl as (s' & Hl & Hrows).
      apply for_loop_rows_grow in Hl as (more & Hm). simpl in Hm.
      rewrite Hm in Hrows. discriminate.
Qed.

(** When at least as many rows are asked for as records match, and the
    records do not change, have pairwise distinct identifiers, and the
    filter has no entry [id], the call returns every matching record
    once: the identifiers returned are those of the matching records, in
    some order. *)
Theorem findManyRandom_exhausts_population (e : env) (num : Z)
    (args : option findManyRandomArgs) (db : list row) :
  (forall t, db_at e t = db) ->
  NoDup (id <$> db) ->
  where_id (where_of args) = None ->
  (forall k, (0 <= random e k)%Q /\ (random e k < 1)%Q) ->
  count ∅ db (where_of args) <= num ->
  exists rs, findManyRandom e num args = Some rs /\
    id <$> rs ≡ₚ id <$> population ∅ db (where_of args).
Proof.
  intros Hs Hu Hid Hr Hnum.
  destruct (static_loop e num args db Hs Hu Hid Hr (Z.to_nat num)
              (entry e (where_of args)) (static_inv_entry e num args db Hs))
    as (s & Hrun & (I1 & I2 & I3 & I4 & I5 & I6 & I7) & Hg & _); [simpl; lia|].
  exists (rows s). unfold findManyRandom, run. rewrite Hrun. split; [done|].
  pose proof (count_nonneg ∅ db (where_of args)) as Hc.
  apply submseteq_length_Permutation.
  - apply NoDup_submseteq; [by rewrite <- I1|].
    intros x Hx. apply list_elem_of_fmap in Hx as (r & -> & Hin).
    destruct (I3 r Hin) as (r0 & Hdb & Hm & ->). rewrite project_id.
    apply list_elem_of_fmap_2. by apply population_elem.
  - rewrite !length_fmap. unfold guard in Hg. apply andb_false_iff in Hg.
    rewrite !Z.ltb_ge in Hg. unfold count in *. lia.
Qed.

End Lookups.

(** ** The course of a run of the retry adapter *)

Section RetryRuns.
Import JS Retry.

Context (request : nat -> completion value) (classifier : value -> bool).

(** A run whose attempts before the [n]-th all fail with accepted errors,
    and whose [n]-th attempt is within the limit and either succeeds, or
    is the last one allowed, or fails with a refused error, ends with the
    outcome of that attempt. *)
Lemma backOff_from_stops (left k0 n : nat) :
  (forall k, (k0 <= k < n)%nat -> exists e, request k = Throw e /\ classifier e = true) ->
  (k0 <= n <= k0 + left)%nat ->
  ((exists v, request n = Return v) \/ n = (k0 + left)%nat \/
   (exists e, request n = Throw e /\ classifier e = false)) ->
  backOff_from request classifier left k0 = (request n, S n).
Proof.
  revert k0. induction left as [|left IH]; intros k0 Hbefore Hn Hstop; simpl.
  - assert (n = k0) by lia. subst. by destruct (request k0).
  - destruct (decide (n = k0)) as [->|Hne].
    + destruct (request k0) as [v|e] eqn:E; [done|].
      destruct Hstop as [[v Hv]|[Hl|(e' & He' & Hc)]]; [discriminate | lia |].
      injection He' as <-. by rewrite Hc.
    + destruct (Hbefore k0) as (e & He & Hc); [lia|]. rewrite He, Hc.
      apply IH; [|lia|].
      * intros k Hk. apply Hbefore. lia.
      * destruct Hstop as [?|[->|?]]; auto. right. left. lia.
Qed.


End RetryRuns.

Section RetryTransactionsRuns.
Import JS Retry.

Context (default_attempts : nat) (h : heap) (options : option BackOffOptions)
  (request : nat -> completion value).


(** With the default classifier, that is with options that have no entry
    [retry]: when the first [n] attempts fail with the code ["P2034"] and
    the next one succeeds within the limit, the run returns the value of
    that attempt, after [n + 1] attempts. *)
Theorem transaction_succeeds_after_conflicts (n : nat) (v : value) :
  options ≫= retry = None ->
  (forall k, (k < n)%nat ->
     exists e, request k = Throw e /\ opt_get h e "code" = VStr "P2034") ->
  request n = Return v ->
  (n < Nat.max 1 (nullish (options ≫= numOfAttempts) default_attempts))%nat ->
  transaction default_attempts h options request = (Return v, S n).
Proof.
  intros Hopt Hfail Hok Hn.
  rewrite (transaction_with _ _ _ _ (default_retry h) (merged_retry_default h _ Hopt)).
  rewrite <- Hok. apply backOff_from_stops; [|lia|eauto].
  intros k Hk. destruct (Hfail k) as (e & He & Hc); [lia|]. exists e.
  split; [done|]. by apply default_retry_P2034.
Qed.

(** With a classifier in force: when every attempt up to the limit fails
    with an error the classifier accepts, the run makes exactly as many
    attempts as the limit allows and ends with the error of the last of
    them. *)
Theorem transaction_gives_up_at_limit (classifier : value -> bool) :
  let limit := Nat.max 1 (nullish (options ≫= numOfAttempts) default_attempts) in
  merged_retry h options = Some classifier ->
  (forall k, (k < limit)%nat ->
     exists e, request k = Throw e /\ classifier e = true) ->
  transaction default_attempts h options request
    = (request (Nat.pred limit), limit) /\
  exists e, (transaction default_attempts h options request).1 = Throw e /\
    classifier e = true.
Proof.
  cbv zeta. intros Hc Hfail. rewrite (transaction_with _ _ _ _ classifier Hc).
  set (n := nullish (options ≫= numOfAttempts) default_attempts) in *.
  assert (backOff_from request classifier (Nat.pred n) 0
          = (request (Nat.pred (Nat.max 1 n)), S (Nat.pred (Nat.max 1 n)))) as ->.
  { apply backOff_from_stops; [|lia|right; left; lia].
    intros k Hk. apply Hfail. lia. }
  split; [f_equal; lia|]. simpl.
  destruct (Hfail (Nat.pred (Nat.max 1 n))) as (e & He & Hce); [lia|]. eauto.
Qed.

End RetryTransactionsRuns.

(** ** What the not-found-tolerant mutations let through *)

Section MutationLetsThrough.
Import JS Mutation.

Context {Args Record : Type} (h : heap).

(** A value thrown by [updateIgnoreOnNotFound] or [deleteIgnoreOnNotFound]
    is the very value the mutation threw, and its [code] is not ["P2025"];
    and a failure is turned into [null] only when the thrown value is an
    object of the heap whose property [code] is the string ["P2025"]: a
    thrown primitive, [null] or [undefined] is never swallowed. *)
Theorem ignoreOnNotFound_lets_through
    (update delete : Args -> completion Record) (args : Args) :
  (forall e, updateIgnoreOnNotFound h update args = Throw e \/
             deleteIgnoreOnNotFound h delete args = Throw e ->
     opt_get h e "code" <> VStr "P2025" /\
     (updateIgnoreOnNotFound h update args = Throw e -> update args = Throw e) /\
     (deleteIgnoreOnNotFound h delete args = Throw e -> delete args = Throw e)) /\
  (forall err, (update args = Throw err /\
                updateIgnoreOnNotFound h update args = Return None) \/
               (delete args = Throw err /\
                deleteIgnoreOnNotFound h delete args = Return None) ->
     exists l o, err = VObj l /\ h !! l = Some o /\
       o !! KStr "code" = Some (VStr "P2025")).
Proof.
  assert (forall (attempt : completion Record) e,
            ignore_not_found h attempt = Throw e ->
            attempt = Throw e /\ opt_get h e "code" <> VStr "P2025") as Hthrow.
  { intros [r|err] e; simpl; [discriminate|].
    destruct (strict_eq (opt_get h err "code") (VStr "P2025")) eqn:E; [discriminate|].
    intros [= ->]. split; [done|]. by apply strict_eq_false. }
  assert (forall err, ignore_not_found h (Throw err : completion Record) = Return None ->
            exists l o, err = VObj l /\ h !! l = Some o /\
              o !! KStr "code" = Some (VStr "P2025")) as Hnull.
  { intros err. simpl.
    destruct (strict_eq (opt_get h err "code") (VStr "P2025")) eqn:E; [|discriminate].
    intros _. apply strict_eq_true in E.
    destruct err as [| | | | |l]; try discriminate. simpl in E.
    destruct (h !! l) as [o|] eqn:Hl; [|discriminate].
    destruct (o !! KStr "code") as [c|] eqn:Hc; [|discriminate].
    simpl in E. subst c. eauto. }
  unfold updateIgnoreOnNotFound, deleteIgnoreOnNotFound. split.
  - intros e He. split; [|split].
    + destruct He as [He|He]; by apply Hthrow in He as [_ ?].
    + intros He'. by apply Hthrow in He' as [? _].
    + intros He'. by apply Hthrow in He' as [? _].
  - intros err [[Hm Hr]|[Hm Hr]]; rewrite Hm in Hr; by apply Hnull.
Qed.

End MutationLetsThrough.

(** ** Handles side by side *)

Section TxnHandles.
Import JS Txn.

Lemma states_from_extends acc cs : exists more, states_from acc cs = acc ++ more.
Proof.
  revert acc. induction cs as [|c cs IH]; intros acc; simpl.
  - exists []. by rewrite app_nil_r.
  - destruct (IH (acc ++ [cell_state acc c])) as (more & ->).
    exists (cell_state acc c :: more). by rewrite <- app_assoc.
Qed.

(** Promises created later do not change the state of earlier ones. *)
Lemma state_of_earlier objs objs' (l rest : list cell) (q : nat) :
  (q < length l)%nat ->
  state_of {| objects := objs; promises := l ++ rest |} q
  = state_of {| objects := objs'; promises := l |} q.
Proof.
  intros Hq. unfold state_of. simpl. rewrite states_from_app.
  destruct (states_from_extends (states_from [] l) rest) as (more & ->).
  rewrite lookup_app_l; [done|]. rewrite states_from_length. simpl. lia.
Qed.

Definition decided (d : decision) (s : pstate) : pstate :=
  match d with
  | Commit => resolve VUndefined s
  | Rollback => reject ROLLBACK s
  end.

(** A call of [$commit] or [$rollback], with promises created after those
    of the handle. *)
Lemma decide_with_inner objs (pw rest : list cell) c s f (d : decision) :
  let h := {| target := c; txPromise := S (length pw);
              tx := S (S (S (length pw))) |} in
  decide_with h d
    {| objects := objs; promises := (pw ++ block (length pw) c s f) ++ rest |}
  = (Return (tx h),
     {| objects := objs;
        promises := (pw ++ block (length pw) c (decided d s) f) ++ rest |}).
Proof.
  cbv zeta. destruct d; unfold decide_with, commit, rollback, bind, settle;
    cbn [txPromise tx objects promises decided];
    (rewrite alter_app_l by (rewrite length_app; simpl; lia));
    (rewrite alter_app_r_alt by lia);
    replace (S (length pw) - length pw)%nat with 1%nat by lia; done.
Qed.

Lemma decide_with_block objs (pw : list cell) c s f (d : decision) :
  let h := {| target := c; txPromise := S (length pw);
              tx := S (S (S (length pw))) |} in
  decide_with h d {| objects := objs; promises := pw ++ block (length pw) c s f |}
  = (Return (tx h),
     {| objects := objs; promises := pw ++ block (length pw) c (decided d s) f |}).
Proof.
  pose proof (decide_with_inner objs pw [] c s f d) as H.
  rewrite !app_nil_r in H. exact H.
Qed.

Lemma block_length (pw : list cell) n c s f :
  length (pw ++ block n c s f) = S (S (S (S (length pw)))).
Proof. rewrite length_app. simpl. lia. Qed.

(** [$begin] leaves the promises that exist alone: their cells and their
    states are as before, whether it returns a handle or throws; and so
    does any later [$commit] or [$rollback] on the handle it returned. *)
Theorem begin_leaves_earlier_promises (prisma : client) (w w1 : world)
    (r : completion handle) (q : nat) :
  begin prisma w = (r, w1) -> (q < length (promises w))%nat ->
  promises w1 !! q = promises w !! q /\
  state_of w1 q = state_of w q /\
  (forall h d, r = Return h ->
     state_of (decide_with h d w1).2 q = state_of w q).
Proof.
  intros Hb Hq. destruct w as [objs pw]. cbn [promises] in Hq.
  assert (state_of {| objects := objs; promises := pw |} q
          = state_of {| objects := objs; promises := pw ++ [] |} q) as Hnil
    by (by rewrite app_nil_r).
  destruct (transaction prisma) as [t|] eqn:Ht.
  - rewrite (begin_supported _ t) in Hb by done. injection Hb as <- <-.
    cbn [promises objects]. split; [by apply lookup_app_l|]. split.
    + by rewrite Hnil, !(state_of_earlier objs objs pw _ q Hq).
    + intros h d [= <-]. rewrite decide_with_block. cbn [snd].
      by rewrite Hnil, !(state_of_earlier objs objs pw _ q Hq).
  - rewrite begin_unsupported in Hb by done. injection Hb as <- <-.
    cbn [promises objects]. split; [by apply lookup_app_l|]. split; [|discriminate].
    by rewrite Hnil, !(state_of_earlier _ objs pw _ q Hq).
Qed.

Lemma state_of_block_at objs (pw : list cell) (m : nat) c s f :
  m = length pw ->
  let w := {| objects := objs; promises := pw ++ block m c s f |} in
  state_of w m = Fulfilled c /\
  state_of w (S m) = s /\
  state_of w (S (S m)) = catch on_rejected s /\
  state_of w (S (S (S m))) = scope_state f (catch on_rejected s).
Proof.
  intros ->. cbv zeta. split; [|apply state_of_block].
  unfold state_of. simpl. rewrite states_block.
  assert (length (states_from [] pw) = length pw) as Hlen
    by (rewrite states_from_length; simpl; lia).
  rewrite lookup_app_r by lia.
  replace (length pw - length (states_from [] pw))%nat with 0%nat by lia. done.
Qed.

Lemma decide_with_block_at objs (pw : list cell) (m : nat) c s f (d : decision) :
  m = length pw ->
  decide_with {| target := c; txPromise := S m; tx := S (S (S m)) |} d
    {| objects := objs; promises := pw ++ block m c s f |}
  = (Return (S (S (S m))),
     {| objects := objs; promises := pw ++ block m c (decided d s) f |}).
Proof. intros ->. apply decide_with_block. Qed.

(** Until [$commit] or [$rollback] is called, the promise the callback
    returned and the promise of the transaction are pending, while the
    promise of the transactional client is fulfilled with the client the
    handle forwards to.  [$commit] fulfils the decision promise; the
    callback promise is then fulfilled with [undefined], and the
    transaction promise is fulfilled too unless the scope fails by itself,
    in which case it is rejected with that failure.  After [$rollback]
    the callback promise and the transaction promise are in the very
    states they are in after [$commit]. *)
Theorem commit_and_rollback_complete_alike (prisma : client) (w w1 : world)
    (h : handle) :
  begin prisma w = (Return h, w1) ->
  exists cb f,
    promises w1 !! tx h = Some (Scope cb f) /\
    promises w1 !! cb = Some (Caught (txPromise h)) /\
    state_of w1 (length (promises w)) = Fulfilled (target h) /\
    state_of w1 (txPromise h) = Pending /\
    state_of w1 cb = Pending /\
    state_of w1 (tx h) = Pending /\
    let wc := (commit h w1).2 in
    let wr := (rollback h w1).2 in
    state_of wc (txPromise h) = Fulfilled VUndefined /\
    state_of wc cb = Fulfilled VUndefined /\
    state_of wc (tx h) =
      match f with
      | None => Fulfilled VUndefined
      | Some e => Rejected e
      end /\
    state_of wr cb = state_of wc cb /\
    state_of wr (tx h) = state_of wc (tx h).
Proof.
  intros Hb. apply begin_returns in Hb as (t & Ht & -> & ->).
  destruct w as [objs pw]. cbn [promises objects tx txPromise target].
  exists (S (S (length pw))), (own_failure t).
  destruct (lookup_block pw (tx_client t) Pending (own_failure t)) as [L1 L2].
  destruct (state_of_block_at objs pw (length pw) (tx_client t) Pending
              (own_failure t) eq_refl) as (P0 & P1 & P2 & P3).
  split; [done|]. split; [done|]. split; [done|]. split; [done|].
  split; [done|]. split; [done|].
  pose proof (decide_with_block objs pw (tx_client t) Pending (own_failure t) Commit)
    as Hc.
  pose proof (decide_with_block objs pw (tx_client t) Pending (own_failure t) Rollback)
    as Hr.
  cbn [decide_with decided resolve reject] in Hc, Hr. rewrite Hc, Hr. cbn [snd].
  destruct (state_of_block_at objs pw (length pw) (tx_client t)
              (Fulfilled VUndefined) (own_failure t) eq_refl) as (_ & C1 & C2 & C3).
  destruct (state_of_block_at objs pw (length pw) (tx_client t)
              (Rejected ROLLBACK) (own_failure t) eq_refl) as (_ & R1 & R2 & R3).
  rewrite C1, C2, C3, R2, R3. simpl. done.
Qed.

(** Two handles begun one after the other: a decision on one leaves the
    other undecided and its transaction open, decisions on the two may
    be taken in either order with the same outcome, and each handle ends
    with its own decision. *)
Theorem handles_do_not_interfere (p1 p2 : client) (w wa wb : world)
    (h1 h2 : handle) (d1 d2 : decision) :
  begin p1 w = (Return h1, wa) ->
  begin p2 wa = (Return h2, wb) ->
  let w1 := (decide_with h1 d1 wb).2 in
  let w2 := (decide_with h2 d2 wb).2 in
  let w12 := (decide_with h2 d2 w1).2 in
  let w21 := (decide_with h1 d1 w2).2 in
  txPromise h1 <> txPromise h2 /\ tx h1 <> tx h2 /\
  state_of w1 (txPromise h2) = Pending /\ state_of w1 (tx h2) = Pending /\
  state_of w2 (txPromise h1) = Pending /\ state_of w2 (tx h1) = Pending /\
  w12 = w21 /\
  state_of w12 (txPromise h1) = decided d1 Pending /\
  state_of w12 (txPromise h2) = decided d2 Pending.
Proof.
  intros Hb1 Hb2.
  apply begin_returns in Hb1 as (t1 & Ht1 & -> & ->).
  apply begin_returns in Hb2 as (t2 & Ht2 & -> & ->).
  destruct w as [objs pw]. cbn [promises objects tx txPromise target].
  set (n := length pw).
  rewrite (block_length pw n). fold n.
  set (m := S (S (S (S n)))).
  set (c1 := tx_client t1). set (f1 := own_failure t1).
  set (c2 := tx_client t2). set (f2 := own_failure t2).
  assert (forall s, m = length (pw ++ block n c1 s f1)) as Hm
    by (intros s; by rewrite block_length).
  cbv zeta.
  (* the first handle decides first *)
  pose proof (decide_with_inner objs pw (block m c2 Pending f2) c1 Pending f1 d1) as E1.
  cbv zeta in E1. fold n in E1. rewrite E1. cbn [snd].
  pose proof (decide_with_block_at objs (pw ++ block n c1 (decided d1 Pending) f1)
                m c2 Pending f2 d2 (Hm _)) as E12.
  rewrite E12. cbn [snd].
  (* the second handle decides first *)
  pose proof (decide_with_block_at objs (pw ++ block n c1 Pending f1)
                m c2 Pending f2 d2 (Hm _)) as E2.
  rewrite E2. cbn [snd].
  pose proof (decide_with_inner objs pw (block m c2 (decided d2 Pending) f2)
                c1 Pending f1 d1) as E21.
  cbv zeta in E21. fold n in E21. rewrite E21. cbn [snd].
  (* the states *)
  destruct (state_of_block_at objs (pw ++ block n c1 (decided d1 Pending) f1)
              m c2 Pending f2 (Hm _)) as (_ & A1 & _ & A3).
  destruct (state_of_block_at objs (pw ++ block n c1 (decided d1 Pending) f1)
              m c2 (decided d2 Pending) f2 (Hm _)) as (_ & B1 & _).
  destruct (state_of_block_at objs pw n c1 Pending f1 eq_refl) as (_ & C1 & _ & C3).
  destruct (state_of_block_at objs pw n c1 (decided d1 Pending) f1 eq_refl)
    as (_ & D1 & _).
  split; [subst m; lia|]. split; [subst m; lia|].
  split; [done|]. split; [done|].
  split.
  { rewrite (state_of_earlier objs objs (pw ++ block n c1 Pending f1)); [done|].
    rewrite block_length. fold n. lia. }
  split.
  { rewrite (state_of_earlier objs objs (pw ++ block n c1 Pending f1)); [done|].
    rewrite block_length. fold n. lia. }
  split; [done|]. split; [|done].
  rewrite (state_of_earlier objs objs (pw ++ block n c1 (decided d1 Pending) f1));
    [done|]. rewrite block_length. fold n. lia.
Qed.

Definition is_scope (c : cell) : bool :=
  match c with
  | Scope _ _ => true
  | _ => false
  end.

(** The transactions opened on the client so far. *)
Definition open_scopes (w : world) : nat :=
  length (filter (fun c => is_scope c) (promises w)).

(** When [$begin] returns a handle it has opened exactly one transaction
    on the client, and [$commit] and [$rollback] on the handle open none
    and create no promise; on a client without a [$transaction] function
    [$begin] throws and has opened none. *)
Theorem begin_opens_one_scope (prisma : client) (w w1 : world) (r : completion handle) :
  begin prisma w = (r, w1) ->
  (forall h, r = Return h ->
     open_scopes w1 = S (open_scopes w) /\
     forall d, open_scopes (decide_with h d w1).2 = open_scopes w1 /\
               length (promises (decide_with h d w1).2) = length (promises w1)) /\
  (transaction prisma = None ->
     (exists e, r = Throw e) /\ open_scopes w1 = open_scopes w).
Proof.
  intros Hb. destruct w as [objs pw].
  assert (forall c s f,
            length (filter (fun c => is_scope c) (pw ++ block (length pw) c s f))
            = S (length (filter (fun c => is_scope c) pw))) as Hcount.
  { intros c s f. rewrite filter_app, length_app. unfold block.
    rewrite !filter_cons. simpl. lia. }
  destruct (transaction prisma) as [t|] eqn:Ht.
  - rewrite (begin_supported _ t) in Hb by done. injection Hb as <- <-.
    cbn [promises objects]. split; [|discriminate].
    intros h [= <-]. unfold open_scopes. cbn [promises].
    split; [apply Hcount|]. intros d. rewrite decide_with_block. cbn [snd promises].
    rewrite !Hcount, !block_length. done.
  - rewrite begin_unsupported in Hb by done. injection Hb as <- <-.
    split; [discriminate|]. intros _. split; [eauto|].
    unfold open_scopes. cbn [promises].
    rewrite filter_app, length_app. simpl. lia.
Qed.

End TxnHandles.

(** ** The window of [paginate] *)

Section PaginationWindow.
Import JS Pagination.

Context {Where Other Row : Type}.
Context (findMany : FindManyArgs Where Other -> list Row) (count : option Where -> Z).

(** In the version with the fall-back on the base query, giving [take]
    and [skip] in the pagination argument is the same as giving them in
    the query itself; a pagination argument with neither is the same as
    none; and a call with no argument at all is the call for the first
    ten records. *)
Theorem paginate_pagination_is_base_window (base : FindManyArgs Where Other) (t s : Z) :
  paginate findMany count
    (Some {| pagination := Some {| take := Some t; skip := Some s |};
             operationArgs := base |})
  = paginate findMany count
      (Some {| pagination := None; operationArgs := window base s t |}) /\
  paginate findMany count
    (Some {| pagination := Some {| take := None; skip := None |};
             operationArgs := base |})
  = paginate findMany count (Some {| pagination := None; operationArgs := base |}) /\
  paginate findMany count None
  = paginate findMany count
      (Some {| pagination := None; operationArgs := window no_args 0 10 |}).
Proof. repeat split. Qed.

End PaginationWindow.

Section SamplingSelection.
Import JS Sampling.

(** Without a [select] argument the rows [findManyRandom] returns carry
    the identifier and no other field. *)
Theorem findManyRandom_default_select (e : env) (num : Z)
    (args : option findManyRandomArgs) (rs : list row) (r : row) :
  args ≫= many_select = None ->
  findManyRandom e num args = Some rs -> r ∈ rs ->
  fields r = [].
Proof.
  intros Hsel Hrs Hin.
  destruct (run_ends e num args) as (s0 & Hr & Hend).
  destruct (reachable_accounts e num args s0 Hr) as (_ & _ & _ & _ & _ & _ & I7).
  assert (r ∈ rows s0) as Hin0.
  { unfold findManyRandom in Hrs.
    destruct Hend as [[_ Hrun]|(_ & s' & Hb & Hrun)]; rewrite Hrun in Hrs;
      simpl in Hrs; injection Hrs as <-; [done|].
    by apply body_break in Hb as [_ ->]. }
  destruct (I7 r Hin0) as (t & r0 & _ & _ & _ & ->).
  unfold select_of. rewrite Hsel. simpl.
  induction (fields r0) as [|kv l IH]; [done|].
  rewrite filter_cons. destruct (decide (kv.1 ∈ [])) as [Hk|_]; [|done].
  by apply elem_of_nil in Hk.
Qed.

End SamplingSelection.

(** ** Concrete runs for the properties above *)

Lemma findManyRandom_rows_were_fetched_witness :
  Sampling.findManyRandom steady_env 2 None = Some [record_b; record_c] /\
  record_b ∈ [record_b; record_c] /\
  exists t r0, (1 <= t)%nat /\ r0 ∈ Sampling.db_at steady_env t /\
    Sampling.where_rest (Sampling.where_of None) r0 = true /\
    record_b = Sampling.project (Sampling.select_of None) r0.
Proof.
  assert (Sampling.findManyRandom steady_env 2 None = Some [record_b; record_c]) as H1
    by (vm_compute; reflexivity).
  split; [exact H1|]. split; [apply list_elem_of_here|].
  exact (findManyRandom_rows_were_fetched steady_env 2 None _ record_b H1
           (list_elem_of_here _ _)).
Defined.

Lemma findManyRandom_default_select_witness :
  (@None Sampling.findManyRandomArgs) ≫= Sampling.many_select = None /\
  Sampling.findManyRandom steady_env 2 None = Some [record_b; record_c] /\
  Sampling.fields record_c = [].
Proof.
  assert (Sampling.findManyRandom steady_env 2 None = Some [record_b; record_c]) as H1
    by (vm_compute; reflexivity).
  split; [reflexivity|]. split; [exact H1|].
  exact (findManyRandom_default_select steady_env 2 None _ record_c eq_refl H1
           (list_elem_of_further _ _ _ (list_elem_of_here _ _))).
Defined.

Lemma findRandom_returns_match_witness :
  (@None Sampling.findFirstArgs) ≫= Sampling.first_select = None /\
  Sampling.findRandom steady_env None = Some record_b /\
  record_b ∈ Sampling.db_at steady_env 1%nat /\
  Sampling.matches ∅ Sampling.empty_where record_b = true.
Proof.
  assert (Sampling.findRandom steady_env None = Some record_b) as H1
    by (vm_compute; reflexivity).
  split; [reflexivity|]. split; [exact H1|].
  exact (findRandom_returns_match steady_env None record_b eq_refl H1).
Defined.

Lemma findRandom_null_iff_empty_witness :
  Sampling.db_at steady_env 1%nat = Sampling.db_at steady_env 0%nat /\
  (0 <= Sampling.random steady_env 0%nat)%Q /\
  (Sampling.random steady_env 0%nat < 1)%Q /\
  (Sampling.findRandom steady_env
     (Some {| Sampling.first_where := None; Sampling.first_select := None |}) = None <->
   Sampling.count ∅ (Sampling.db_at steady_env 0%nat) Sampling.empty_where = 0).
Proof.
  assert (0 <= Sampling.random steady_env 0%nat)%Q as H0 by discriminate.
  assert (Sampling.random steady_env 0%nat < 1)%Q as H1 by reflexivity.
  split; [reflexivity|]. split; [exact H0|]. split; [exact H1|].
  exact (findRandom_null_iff_empty steady_env None None eq_refl H0 H1).
Defined.

Lemma exists_agrees_with_sampling_witness :
  (forall t, Sampling.db_at steady_env t = three_records) /\
  (forall k, (0 <= Sampling.random steady_env k)%Q /\
             (Sampling.random steady_env k < 1)%Q) /\
  1 <= 2 /\
  (Existence.exists_ steady_env None = false <->
     Sampling.findRandom steady_env
       (Some {| Sampling.first_where := None; Sampling.first_select := None |}) = None) /\
  (Existence.exists_ steady_env None = false <->
     Sampling.findManyRandom steady_env 2
       (Some {| Sampling.many_where := None; Sampling.many_select := None |}) = Some []).
Proof.
  assert (forall t, Sampling.db_at steady_env t = three_records) as H1
    by (intros t; reflexivity).
  assert (forall k, (0 <= Sampling.random steady_env k)%Q /\
                    (Sampling.random steady_env k < 1)%Q) as H2
    by (intros k; split; [discriminate | reflexivity]).
  assert (1 <= 2) as H3 by lia.
  split; [exact H1|]. split; [exact H2|]. split; [exact H3|].
  exact (exists_agrees_with_sampling steady_env three_records 2 None None None H1 H2 H3).
Defined.

Lemma findManyRandom_exhausts_population_witness :
  (forall t, Sampling.db_at steady_env t = three_records) /\
  NoDup (Sampling.id <$> three_records) /\
  Sampling.count ∅ three_records (Sampling.where_of None) <= 5 /\
  exists rs, Sampling.findManyRandom steady_env 5 None = Some rs /\
    Sampling.id <$> rs
      ≡ₚ Sampling.id <$> Sampling.population ∅ three_records (Sampling.where_of None).
Proof.
  assert (forall t, Sampling.db_at steady_env t = three_records) as H1
    by (intros t; reflexivity).
  assert (NoDup (Sampling.id <$> three_records)) as H2
    by (apply (bool_decide_unpack _); vm_compute; exact I).
  assert (forall k, (0 <= Sampling.random steady_env k)%Q /\
                    (Sampling.random steady_env k < 1)%Q) as H4
    by (intros k; split; [discriminate | reflexivity]).
  assert (Sampling.count ∅ three_records (Sampling.where_of None) <= 5) as H5
    by (vm_compute; discriminate).
  split; [exact H1|]. split; [exact H2|]. split; [exact H5|].
  exact (findManyRandom_exhausts_population steady_env 5 None three_records
           H1 H2 eq_refl H4 H5).
Defined.

(** A heap with a write conflict, and an operation that meets two of them
    before it succeeds. *)
Definition conflict_heap : JS.heap :=
  {[ 1%nat := {[ JS.KStr "code" := JS.VStr "P2034" ]} ]}.

Definition third_time_lucky (k : nat) : JS.completion JS.value :=
  if (k <? 2)%nat then JS.Throw (JS.VObj 1%nat) else JS.Return (JS.VNum 7).

Lemma transaction_succeeds_after_conflicts_witness :
  (forall k, (k < 2)%nat ->
     exists e, third_time_lucky k = JS.Throw e /\
       JS.opt_get conflict_heap e "code" = JS.VStr "P2034") /\
  third_time_lucky 2 = JS.Return (JS.VNum 7) /\
  Retry.transaction 10 conflict_heap None third_time_lucky
    = (JS.Return (JS.VNum 7), 3%nat).
Proof.
  assert (forall k, (k < 2)%nat ->
            exists e, third_time_lucky k = JS.Throw e /\
              JS.opt_get conflict_heap e "code" = JS.VStr "P2034") as H1.
  { intros k Hk. exists (JS.VObj 1%nat).
    destruct k as [|[|k]]; [split; reflexivity | split; reflexivity | lia]. }
  split; [exact H1|]. split; [reflexivity|].
  refine (transaction_succeeds_after_conflicts 10 conflict_heap None third_time_lucky
            2 (JS.VNum 7) eq_refl H1 eq_refl _).
  simpl. lia.
Defined.

Lemma transaction_gives_up_at_limit_witness :
  let options := Some {| Retry.retry := None; Retry.numOfAttempts := Some 3%nat |} in
  let request := fun _ : nat => JS.Throw (A := JS.value) (JS.VObj 1%nat) in
  Retry.merged_retry conflict_heap options = Some (Retry.default_retry conflict_heap) /\
  (forall k, (k < 3)%nat ->
     exists e, request k = JS.Throw e /\ Retry.default_retry conflict_heap e = true) /\
  Retry.transaction 10 conflict_heap options request = (JS.Throw (JS.VObj 1%nat), 3%nat).
Proof.
  cbv zeta.
  assert (forall k, (k < 3)%nat ->
            exists e, JS.Throw (A := JS.value) (JS.VObj 1%nat) = JS.Throw e /\
              Retry.default_retry conflict_heap e = true) as H1.
  { intros k _. exists (JS.VObj 1%nat). split; reflexivity. }
  split; [reflexivity|]. split; [exact H1|].
  exact (proj1 (transaction_gives_up_at_limit 10 conflict_heap
                  (Some {| Retry.retry := None; Retry.numOfAttempts := Some 3%nat |})
                  (fun _ => JS.Throw (JS.VObj 1%nat))
                  (Retry.default_retry conflict_heap) eq_refl H1)).
Defined.

(** Options with an entry [retry] whose value is [undefined]: the first
    write conflict ends the run, with a [TypeError]. *)
Example transaction_retry_undefined :
  let options := Some {| Retry.retry := Some None; Retry.numOfAttempts := None |} in
  Retry.transaction 10 conflict_heap options third_time_lucky
    = (JS.Throw (Retry.type_error conflict_heap), 1%nat) /\
  Retry.type_error conflict_heap <> JS.VObj 1%nat.
Proof. split; [reflexivity|]. vm_compute. discriminate. Qed.

(** A second handle, begun after the sample one. *)
Definition second_handle : Txn.handle :=
  {| Txn.target := JS.VObj 7%nat; Txn.txPromise := 5%nat; Txn.tx := 7%nat |}.

Definition second_world : Txn.world :=
  {| Txn.objects := Txn.objects Txn.initial_world;
     Txn.promises :=
       Txn.promises sample_world ++
       [Txn.Plain (JS.Fulfilled (JS.VObj 7%nat)); Txn.Plain JS.Pending;
        Txn.Caught 5%nat; Txn.Scope 6%nat None] |}.

Lemma begin_leaves_earlier_promises_witness :
  Txn.begin sample_client sample_world = (JS.Return second_handle, second_world) /\
  (1 < length (Txn.promises sample_world))%nat /\
  Txn.state_of second_world 1%nat = Txn.state_of sample_world 1%nat /\
  Txn.state_of (Txn.decide_with second_handle Txn.Rollback second_world).2 1%nat
    = Txn.state_of sample_world 1%nat.
Proof.
  assert (1 < length (Txn.promises sample_world))%nat as Hq by (simpl; lia).
  split; [reflexivity|]. split; [exact Hq|].
  destruct (begin_leaves_earlier_promises sample_client sample_world second_world
              (JS.Return second_handle) 1%nat eq_refl Hq) as (_ & H1 & H2).
  split; [exact H1 | exact (H2 second_handle Txn.Rollback eq_refl)].
Defined.

Lemma commit_and_rollback_complete_alike_witness :
  Txn.begin sample_client Txn.initial_world = (JS.Return sample_handle, sample_world) /\
  exists cb f,
    Txn.promises sample_world !! Txn.tx sample_handle = Some (Txn.Scope cb f) /\
    Txn.state_of (Txn.rollback sample_handle sample_world).2 (Txn.tx sample_handle)
    = Txn.state_of (Txn.commit sample_handle sample_world).2 (Txn.tx sample_handle).
Proof.
  split; [reflexivity|].
  destruct (commit_and_rollback_complete_alike sample_client Txn.initial_world
              sample_world sample_handle eq_refl)
    as (cb & f & H1 & _ & _ & _ & _ & _ & _ & _ & _ & _ & H2).
  exists cb, f. split; [exact H1 | exact H2].
Defined.

Lemma handles_do_not_interfere_witness :
  Txn.begin sample_client Txn.initial_world = (JS.Return sample_handle, sample_world) /\
  Txn.begin sample_client sample_world = (JS.Return second_handle, second_world) /\
  (Txn.decide_with second_handle Txn.Commit
     (Txn.decide_with sample_handle Txn.Rollback second_world).2).2
  = (Txn.decide_with sample_handle Txn.Rollback
       (Txn.decide_with second_handle Txn.Commit second_world).2).2.
Proof.
  split; [reflexivity|]. split; [reflexivity|].
  destruct (handles_do_not_interfere sample_client sample_client Txn.initial_world
              sample_world second_world sample_handle second_handle
              Txn.Rollback Txn.Commit eq_refl eq_refl)
    as (_ & _ & _ & _ & _ & _ & H & _).
  exact H.
Defined.

Lemma begin_opens_one_scope_witness :
  Txn.begin sample_client sample_world = (JS.Return second_handle, second_world) /\
  open_scopes second_world = S (open_scopes sample_world).
Proof.
  split; [reflexivity|].
  destruct (begin_opens_one_scope sample_client sample_world second_world
              (JS.Return second_handle) eq_refl) as (H & _).
  exact (proj1 (H second_handle eq_refl)).
Defined.
